(** * Member registration dialog and video gallery: a shallow embedding

    The two React components of the repository are embedded as Rocq
    functions.  Component state (the [useState] cells) is a record, the
    event handlers are computations in a small state-and-exception monad,
    and every call that leaves the component (identity service, document
    store, toast notifications, parent callbacks, media elements) is
    recorded in a trace so that "is never called" and "fires exactly once"
    can be stated.

    Conventions.
    - JavaScript strings are [string]; a character is a code unit below 256.
    - A JavaScript object used as a dictionary is a [gmap] of its own
      properties; a missing key reads as [None] ([undefined]).
    - Numbers that the handlers only store and compare with [0] (volume,
      playback position) are rationals. *)

From Stdlib Require Import Ascii String ZArith QArith.
From stdpp Require Import base option list strings gmap pretty.

Local Open Scope string_scope.

(** ** A state-and-exception monad for handlers

    [Eff W E A] is a computation over a world [W] that either returns an
    [A] or throws an [E].  A throw keeps the world reached so far: state
    updates and calls made before the exception stay made, as in
    JavaScript. *)

Module Effects.

Section Monad.
Context {W E : Type}.

Definition Eff (A : Type) : Type := W -> (E + A) * W.

Definition ret {A} (a : A) : Eff A := fun w => (inr a, w).

Definition bind {A B} (c : Eff A) (k : A -> Eff B) : Eff B :=
  fun w =>
    match c w with
    | (inr a, w') => k a w'
    | (inl e, w') => (inl e, w')
    end.

Definition throw {A} (e : E) : Eff A := fun w => (inl e, w).

(** [try { body } catch (e) { handler e }] *)
Definition try_catch {A} (body : Eff A) (handler : E -> Eff A) : Eff A :=
  fun w =>
    match body w with
    | (inr a, w') => (inr a, w')
    | (inl e, w') => handler e w'
    end.

(** [try { body } finally { cleanup }]: the cleanup runs on both exits
    and an exception of the body is re-thrown after it. *)
Definition try_finally {A} (body : Eff A) (cleanup : Eff unit) : Eff A :=
  fun w =>
    match body w with
    | (r, w') =>
        match cleanup w' with
        | (inr _, w'') => (r, w'')
        | (inl e, w'') => (inl e, w'')
        end
    end.

Definition get : Eff W := fun w => (inr w, w).
Definition gets {A} (f : W -> A) : Eff A := fun w => (inr (f w), w).
Definition modify (f : W -> W) : Eff unit := fun w => (inr tt, f w).

(** [await] of a promise that has settled with [r]. *)
Definition settle {A} (r : E + A) : Eff A := fun w => (r, w).

Definition world_after {A} (c : Eff A) (w : W) : W := snd (c w).
Definition result_of {A} (c : Eff A) (w : W) : E + A := fst (c w).
End Monad.

Arguments Eff : clear implicits.

End Effects.

Import Effects.

Notation "'let!' x ':=' c 'in' k" := (bind c (fun x => k))
  (at level 10, x name, c at level 100, k at level 200).
Notation "c >> k" := (bind c (fun _ => k))
  (at level 65, right associativity).

(** ** JavaScript truthiness of optional values *)

Definition truthy_string (o : option string) : bool :=
  match o with
  | Some s => negb (String.eqb s "")
  | None => false
  end.

Definition truthy_bool (o : option bool) : bool :=
  match o with
  | Some b => b
  | None => false
  end.

(** [a || d] on a possibly missing string. *)
Definition js_or (o : option string) (d : string) : string :=
  match o with
  | Some s => if String.eqb s "" then d else s
  | None => d
  end.

(** * The registration dialog (RegisterMember) *)

Module RegisterMember.

Record MemberFormData := {
  name : string;
  email : string;
  password : string;
  membership : string;
  status : string;
  statusColor : string;
}.

Definition defaultValues : MemberFormData := {|
  name := "";
  email := "";
  password := "";
  membership := "Subadmin";
  status := "Active";
  statusColor := "text-green-500";
|}.

(** The error object a rejected service call is caught with. *)
Record FirebaseError := {
  code : option string;
  message : option string;
}.

Record UserCredential := { uid : string }.

Definition Date := N.

(** The two document literals written by [onSubmit]. *)
Inductive DocumentData :=
  | MemberDoc (data : MemberFormData) (userId : string) (timestamp : Date)
  | NotificationDoc (text : string) (timestamp : Date).

Inductive Effect :=
  | SetFormError (e : option string)
  | CreateUser (email password : string)
  | AddDoc (collection : string) (doc : DocumentData)
  | ToastSuccess (msg : string)
  | ToastError (msg : string)
  | Reset
  | OnClose.

Definition is_store_write (e : Effect) : bool :=
  match e with AddDoc _ _ => true | _ => false end.

Definition is_external_call (e : Effect) : bool :=
  match e with CreateUser _ _ | AddDoc _ _ => true | _ => false end.

Definition is_toast_success (e : Effect) : bool :=
  match e with ToastSuccess _ => true | _ => false end.

Definition is_reset (e : Effect) : bool :=
  match e with Reset => true | _ => false end.


Definition is_close (e : Effect) : bool :=
  match e with OnClose => true | _ => false end.

(** The external services, as seen from one submission: the outcome of
    the identity call, the outcome of a store write, and the clock read by
    [new Date()] (indexed by the number of effects issued so far). *)
Record Services := {
  createUserWithEmailAndPassword : string -> string -> FirebaseError + UserCredential;
  addDoc : string -> DocumentData -> FirebaseError + unit;
  newDate : nat -> Date;
}.

Record FieldErrors := {
  err_name : option string;
  err_email : option string;
  err_password : option string;
  err_membership : option string;
}.

Definition no_field_errors : FieldErrors :=
  {| err_name := None; err_email := None; err_password := None; err_membership := None |}.

Definition is_valid (e : FieldErrors) : bool :=
  match err_name e, err_email e, err_password e, err_membership e with
  | None, None, None, None => true
  | _, _, _, _ => false
  end.

(** Component state: the [formError] cell, the form library's field
    values and field errors, and the trace of calls issued. *)
Record Dialog := {
  formError : option string;
  values : MemberFormData;
  errors : FieldErrors;
  trace : list Effect;
}.

Definition emit (e : Effect) : Eff Dialog FirebaseError unit :=
  modify (fun d => {| formError := formError d; values := values d;
                      errors := errors d; trace := trace d ++ [e] |}).

Definition setFormError (e : option string) : Eff Dialog FirebaseError unit :=
  modify (fun d => {| formError := e; values := values d;
                      errors := errors d; trace := trace d |})
  >> emit (SetFormError e).

(** [reset()] of the form library: back to [defaultValues], errors cleared. *)
Definition reset : Eff Dialog FirebaseError unit :=
  modify (fun d => {| formError := formError d; values := defaultValues;
                      errors := no_field_errors; trace := trace d |})
  >> emit Reset.

Definition onClose : Eff Dialog FirebaseError unit := emit OnClose.
Definition toast_success (m : string) : Eff Dialog FirebaseError unit := emit (ToastSuccess m).
Definition toast_error (m : string) : Eff Dialog FirebaseError unit := emit (ToastError m).

Definition code_is (e : FirebaseError) (c : string) : bool :=
  match code e with
  | Some c' => String.eqb c' c
  | None => false
  end.

Section Submit.
Variable svc : Services.

Definition new_Date : Eff Dialog FirebaseError Date :=
  gets (fun d => newDate svc (length (trace d))).

Definition await_createUser (em pw : string) : Eff Dialog FirebaseError UserCredential :=
  emit (CreateUser em pw) >> settle (createUserWithEmailAndPassword svc em pw).

Definition await_addDoc (coll : string) (doc : DocumentData) : Eff Dialog FirebaseError unit :=
  emit (AddDoc coll doc) >> settle (addDoc svc coll doc).

Definition errorMessage_of (error : FirebaseError) : string :=
  let errorMessage := js_or (message error) "Failed to register member." in
  if code_is error "auth/email-already-in-use" then "Email already in use."
  else if code_is error "auth/invalid-email" then "Invalid email format."
  else if code_is error "auth/weak-password" then "Password must be at least 6 characters."
  else if code_is error "permission-denied" then "Permission denied: Unable to save data."
  else if code_is error "unavailable" then "Firestore service is unavailable."
  else errorMessage.

Definition onSubmit (data : MemberFormData) : Eff Dialog FirebaseError unit :=
  setFormError None >>
  try_catch
    (let! userCredential := await_createUser (email data) (password data) in
     let user := userCredential in
     let! t_member := new_Date in
     await_addDoc "members" (MemberDoc data (uid user) t_member) >>
     let! t_note := new_Date in
     await_addDoc "notifications"
       (NotificationDoc ("New member registered: " +:+ name data) t_note) >>
     toast_success "Member registered successfully!" >>
     reset >>
     onClose)
    (fun error =>
       let errorMessage := errorMessage_of error in
       setFormError (Some errorMessage) >>
       toast_error errorMessage).
End Submit.

(** ** Field validation and [handleSubmit]

    The rules are the options given to [register] in the form.  The
    engine that applies them belongs to the form library. *)

(** [\s] of a JavaScript regular expression, on code units below 256:
    tab, line feed, vertical tab, form feed, carriage return, space and
    no-break space. *)
Definition is_js_space (c : ascii) : bool :=
  let n := Ascii.N_of_ascii c in
  ((9 <=? n) && (n <=? 13) || (n =? 32) || (n =? 160))%N.

Fixpoint all_non_space (s : string) : bool :=
  match s with
  | EmptyString => true
  | String c r => negb (is_js_space c) && all_non_space r
  end.

(** Some suffix of [s] is a dot followed by at least one character. *)
Fixpoint dot_then_more (s : string) : bool :=
  match s with
  | EmptyString => false
  | String c r => (Ascii.eqb c "." && negb (String.eqb r "")) || dot_then_more r
  end.

(** Some suffix of [s] is an at sign, at least one character, and then
    [dot_then_more]. *)
Fixpoint at_then_domain (s : string) : bool :=
  match s with
  | EmptyString => false
  | String c r =>
      (Ascii.eqb c "@" &&
       match r with EmptyString => false | String _ r' => dot_then_more r' end)
      || at_then_domain r
  end.

(** The pattern [/^\S+@\S+\.\S+$/]. *)
Definition email_pattern (s : string) : bool :=
  all_non_space s &&
  match s with
  | EmptyString => false
  | String _ r => at_then_domain r
  end.

Record RegisterOptions := {
  required : option string;
  minLength : option (nat * string);
  pattern : option ((string -> bool) * string);
}.

Definition name_options : RegisterOptions :=
  {| required := Some "Name is required"; minLength := None; pattern := None |}.

Definition email_options : RegisterOptions :=
  {| required := Some "Email is required"; minLength := None;
     pattern := Some (email_pattern, "Invalid email format") |}.

Definition password_options : RegisterOptions :=
  {| required := Some "Password is required";
     minLength := Some (6, "Password must be at least 6 characters");
     pattern := None |}.

Definition membership_options : RegisterOptions :=
  {| required := Some "Membership type is required"; minLength := None; pattern := None |}.

(** Modelled from the spec: the form library's validation of one field
    (the library is a dependency, not a source file).  The first failing
    rule gives the field's message: required-ness on the empty value,
    then the minimum length, then the pattern. *)
Definition validateField (opts : RegisterOptions) (value : string) : option string :=
  if String.eqb value "" then required opts
  else
    match minLength opts with
    | Some (n, msg) =>
        if Nat.ltb (String.length value) n then Some msg
        else match pattern opts with
             | Some (re, msg') => if re value then None else Some msg'
             | None => None
             end
    | None =>
        match pattern opts with
        | Some (re, msg') => if re value then None else Some msg'
        | None => None
        end
    end.

Definition validate (v : MemberFormData) : FieldErrors :=
  {| err_name := validateField name_options (name v);
     err_email := validateField email_options (email v);
     err_password := validateField password_options (password v);
     err_membership := validateField membership_options (membership v) |}.

(** Modelled from the spec: [handleSubmit] of the form library (a
    dependency, not a source file).  It validates the current field
    values, publishes the field errors, and calls the submit callback
    only when no field has an error. *)
Definition handleSubmit (onValid : MemberFormData -> Eff Dialog FirebaseError unit)
  : Eff Dialog FirebaseError unit :=
  let! fieldValues := gets values in
  let fieldErrors := validate fieldValues in
  modify (fun d => {| formError := formError d; values := values d;
                      errors := fieldErrors; trace := trace d |}) >>
  if is_valid fieldErrors then onValid fieldValues else ret tt.

(** The dialog as first opened: nothing typed, nothing issued. *)
Definition initial : Dialog :=
  {| formError := None; values := defaultValues;
     errors := no_field_errors; trace := [] |}.

(** The user fills in the form. *)
Definition fill (v : MemberFormData) (d : Dialog) : Dialog :=
  {| formError := formError d; values := v; errors := errors d; trace := trace d |}.

(** The effects issued between two dialogs of one run. *)
Definition issued_since (d d' : Dialog) : list Effect :=
  drop (length (trace d)) (trace d').

(** ** Sample services and form contents *)

Definition duplicate_email_error : FirebaseError :=
  {| code := Some "auth/email-already-in-use";
     message := Some "Firebase: Error (auth/email-already-in-use)." |}.

(** An identity service that knows the address already. *)
Definition services_rejecting_duplicate : Services :=
  {| createUserWithEmailAndPassword := fun _ _ => inl duplicate_email_error;
     addDoc := fun _ _ => inr tt;
     newDate := fun n => N.of_nat n |}.

(** Services that accept everything. *)
Definition services_accepting : Services :=
  {| createUserWithEmailAndPassword := fun em _ => inr {| uid := "uid-" +:+ em |};
     addDoc := fun _ _ => inr tt;
     newDate := fun n => N.of_nat n |}.

Definition ada : MemberFormData :=
  {| name := "Ada"; email := "ada@example.org"; password := "secret1";
     membership := "Basic"; status := "Active"; statusColor := "text-green-500" |}.

Definition no_password : MemberFormData :=
  {| name := "Ada"; email := "ada@example.org"; password := "";
     membership := "Basic"; status := "Active"; statusColor := "text-green-500" |}.

(** ** The close and Cancel buttons *)

(** The click handler shared by the close button and the Cancel button:
    [onClose(); reset(); setFormError(null)]. *)
Definition handleCloseClick : Eff Dialog FirebaseError unit :=
  onClose >> reset >> setFormError None.

(** ** More sample services and form contents *)

Definition store_unavailable_error : FirebaseError :=
  {| code := Some "unavailable"; message := Some "The service is currently unavailable." |}.

Definition weak_password_error : FirebaseError :=
  {| code := Some "auth/weak-password"; message := None |}.

(** A store that rejects every write to the collection [coll] and accepts
    the others, behind an identity service that accepts. *)
Definition services_rejecting_writes_to (coll : string) : Services :=
  {| createUserWithEmailAndPassword := fun em _ => inr {| uid := "uid-" +:+ em |};
     addDoc := fun c _ => if String.eqb c coll then inl store_unavailable_error else inr tt;
     newDate := fun n => N.of_nat n |}.

Definition services_rejecting_identity (error : FirebaseError) : Services :=
  {| createUserWithEmailAndPassword := fun _ _ => inl error;
     addDoc := fun _ _ => inr tt;
     newDate := fun n => N.of_nat n |}.

Definition short_password : MemberFormData :=
  {| name := "Ada"; email := "ada@example.org"; password := "abc";
     membership := "Basic"; status := "Active"; statusColor := "text-green-500" |}.

Definition malformed_email : MemberFormData :=
  {| name := "Ada"; email := "ada@example"; password := "secret1";
     membership := "Basic"; status := "Active"; statusColor := "text-green-500" |}.

End RegisterMember.

(** * The video gallery and player (VideoFetch) *)

Module VideoFetch.

(** ** Data *)

(** The fields of a stored video document, each possibly absent. *)
Record VideoData := {
  data_id : option string;
  data_title : option string;
  data_channel : option string;
  data_category : option string;
  data_thumbnail : option string;
  data_videoUrl : option string;
  data_description : option string;
}.

Record QueryDocumentSnapshot := {
  doc_id : string;
  doc_data : VideoData;
}.

(** A fetched record: [{ id: doc.id, ...doc.data(), views, duration }]. *)
Record Video := {
  id : string;
  title : option string;
  channel : option string;
  category : option string;
  thumbnail : option string;
  videoUrl : option string;
  description : option string;
  views : string;
  duration : string;
}.

(** The object literal [{ id, category }] held by [currentFullScreenVideo]. *)
Record FullScreenVideo := {
  fs_id : string;
  fs_category : string;
}.

(** The [useState] cells of the component. *)
Record State := {
  videos : gmap string (list Video);
  playing : gmap string bool;
  volume : gmap string Q;
  muted : gmap string bool;
  progress : gmap string Q;
  currentFullScreenVideo : option FullScreenVideo;
  currentCategory : option string;
  videoLoaded : gmap string bool;
  isFullScreen : bool;
  isSmallScreen : bool;
}.

(** What the handlers touch of a native [<video>] element: three
    properties they assign, and which fullscreen request methods the
    browser provides on it. *)
Record HTMLVideoElement := {
  el_muted : bool;
  el_volume : Q;
  el_currentTime : Q;
  requestFullscreen : bool;
  webkitRequestFullscreen : bool;
  msRequestFullscreen : bool;
}.

(** What the handlers read of [document]: the element in fullscreen mode
    (named by the video id of its ref slot) and which exit methods exist. *)
Record Document := {
  fullscreenElement : option string;
  exitFullscreen : bool;
  webkitExitFullscreen : bool;
  msExitFullscreen : bool;
}.

Inductive Vendor := Standard | Webkit | Ms.

Inductive Effect :=
  | SetLoading (loading : bool)
  | GetDocs (collection : string)
  | SetWorkouts (workouts : gmap string (list Video))
  | ConsoleError (label : string)
  | Pause (videoId : string)
  | Play (videoId : string)
  | RequestFullscreen (v : Vendor) (videoId : string)
  | ExitFullscreen (v : Vendor).

Inductive JsError :=
  | TypeError (what : string)
  | ServiceError (what : string).

(** The component together with what it acts on: its state, the
    [videoRefs.current] table, the document, and the trace of calls that
    leave the component. *)
Record World := {
  state : State;
  videoRefs : gmap string HTMLVideoElement;
  document : Document;
  trace : list Effect;
}.

(** ** State updates *)

Definition on_state (f : State -> State) (w : World) : World :=
  {| state := f (state w); videoRefs := videoRefs w;
     document := document w; trace := trace w |}.

Definition on_refs (f : gmap string HTMLVideoElement -> gmap string HTMLVideoElement)
    (w : World) : World :=
  {| state := state w; videoRefs := f (videoRefs w);
     document := document w; trace := trace w |}.

Definition emit (e : Effect) : Eff World JsError unit :=
  modify (fun w => {| state := state w; videoRefs := videoRefs w;
                      document := document w; trace := trace w ++ [e] |}).

Definition setVideos (v : gmap string (list Video)) : Eff World JsError unit :=
  modify (on_state (fun s =>
    {| videos := v; playing := playing s; volume := volume s; muted := muted s;
       progress := progress s; currentFullScreenVideo := currentFullScreenVideo s;
       currentCategory := currentCategory s; videoLoaded := videoLoaded s;
       isFullScreen := isFullScreen s; isSmallScreen := isSmallScreen s |})).

Definition setPlaying (f : gmap string bool -> gmap string bool) : Eff World JsError unit :=
  modify (on_state (fun s =>
    {| videos := videos s; playing := f (playing s); volume := volume s; muted := muted s;
       progress := progress s; currentFullScreenVideo := currentFullScreenVideo s;
       currentCategory := currentCategory s; videoLoaded := videoLoaded s;
       isFullScreen := isFullScreen s; isSmallScreen := isSmallScreen s |})).

Definition setVolume (f : gmap string Q -> gmap string Q) : Eff World JsError unit :=
  modify (on_state (fun s =>
    {| videos := videos s; playing := playing s; volume := f (volume s); muted := muted s;
       progress := progress s; currentFullScreenVideo := currentFullScreenVideo s;
       currentCategory := currentCategory s; videoLoaded := videoLoaded s;
       isFullScreen := isFullScreen s; isSmallScreen := isSmallScreen s |})).

Definition setMuted (f : gmap string bool -> gmap string bool) : Eff World JsError unit :=
  modify (on_state (fun s =>
    {| videos := videos s; playing := playing s; volume := volume s; muted := f (muted s);
       progress := progress s; currentFullScreenVideo := currentFullScreenVideo s;
       currentCategory := currentCategory s; videoLoaded := videoLoaded s;
       isFullScreen := isFullScreen s; isSmallScreen := isSmallScreen s |})).

Definition setProgress (f : gmap string Q -> gmap string Q) : Eff World JsError unit :=
  modify (on_state (fun s =>
    {| videos := videos s; playing := playing s; volume := volume s; muted := muted s;
       progress := f (progress s); currentFullScreenVideo := currentFullScreenVideo s;
       currentCategory := currentCategory s; videoLoaded := videoLoaded s;
       isFullScreen := isFullScreen s; isSmallScreen := isSmallScreen s |})).

Definition setCurrentFullScreenVideo (v : option FullScreenVideo) : Eff World JsError unit :=
  modify (on_state (fun s =>
    {| videos := videos s; playing := playing s; volume := volume s; muted := muted s;
       progress := progress s; currentFullScreenVideo := v;
       currentCategory := currentCategory s; videoLoaded := videoLoaded s;
       isFullScreen := isFullScreen s; isSmallScreen := isSmallScreen s |})).

Definition setCurrentCategory (c : option string) : Eff World JsError unit :=
  modify (on_state (fun s =>
    {| videos := videos s; playing := playing s; volume := volume s; muted := muted s;
       progress := progress s; currentFullScreenVideo := currentFullScreenVideo s;
       currentCategory := c; videoLoaded := videoLoaded s;
       isFullScreen := isFullScreen s; isSmallScreen := isSmallScreen s |})).

Definition setVideoLoaded (f : gmap string bool -> gmap string bool) : Eff World JsError unit :=
  modify (on_state (fun s =>
    {| videos := videos s; playing := playing s; volume := volume s; muted := muted s;
       progress := progress s; currentFullScreenVideo := currentFullScreenVideo s;
       currentCategory := currentCategory s; videoLoaded := f (videoLoaded s);
       isFullScreen := isFullScreen s; isSmallScreen := isSmallScreen s |})).

Definition setIsFullScreen (b : bool) : Eff World JsError unit :=
  modify (on_state (fun s =>
    {| videos := videos s; playing := playing s; volume := volume s; muted := muted s;
       progress := progress s; currentFullScreenVideo := currentFullScreenVideo s;
       currentCategory := currentCategory s; videoLoaded := videoLoaded s;
       isFullScreen := b; isSmallScreen := isSmallScreen s |})).

Definition setIsSmallScreen (f : bool -> bool) : Eff World JsError unit :=
  modify (on_state (fun s =>
    {| videos := videos s; playing := playing s; volume := volume s; muted := muted s;
       progress := progress s; currentFullScreenVideo := currentFullScreenVideo s;
       currentCategory := currentCategory s; videoLoaded := videoLoaded s;
       isFullScreen := isFullScreen s; isSmallScreen := f (isSmallScreen s) |})).

(** Parent callbacks and the console only leave a trace. *)
Definition setLoading (b : bool) : Eff World JsError unit := emit (SetLoading b).
Definition setWorkouts (g : gmap string (list Video)) : Eff World JsError unit :=
  emit (SetWorkouts g).
Definition console_error (label : string) : Eff World JsError unit :=
  emit (ConsoleError label).

(** ** Media elements *)

(** [videoRefs.current[videoId]] *)
Definition videoRef (videoId : string) : Eff World JsError (option HTMLVideoElement) :=
  gets (fun w => videoRefs w !! videoId).

(** [el.muted = b] on the element held in slot [videoId]. *)
Definition assign_muted (videoId : string) (b : bool) : Eff World JsError unit :=
  modify (on_refs (alter (fun el =>
    {| el_muted := b; el_volume := el_volume el; el_currentTime := el_currentTime el;
       requestFullscreen := requestFullscreen el;
       webkitRequestFullscreen := webkitRequestFullscreen el;
       msRequestFullscreen := msRequestFullscreen el |}) videoId)).

(** [el.volume = v] *)
Definition assign_volume (videoId : string) (v : Q) : Eff World JsError unit :=
  modify (on_refs (alter (fun el =>
    {| el_muted := el_muted el; el_volume := v; el_currentTime := el_currentTime el;
       requestFullscreen := requestFullscreen el;
       webkitRequestFullscreen := webkitRequestFullscreen el;
       msRequestFullscreen := msRequestFullscreen el |}) videoId)).

(** [el.currentTime = t] *)
Definition assign_currentTime (videoId : string) (t : Q) : Eff World JsError unit :=
  modify (on_refs (alter (fun el =>
    {| el_muted := el_muted el; el_volume := el_volume el; el_currentTime := t;
       requestFullscreen := requestFullscreen el;
       webkitRequestFullscreen := webkitRequestFullscreen el;
       msRequestFullscreen := msRequestFullscreen el |}) videoId)).

(** [el.play().catch(...)]: the call is issued; a rejection by the
    browser is logged later and changes nothing here. *)
Definition play (videoId : string) : Eff World JsError unit := emit (Play videoId).

(** [videoRefs.current[videoId].pause()] with no guard: a missing element
    is a [TypeError]. *)
Definition pause_unguarded (videoId : string) : Eff World JsError unit :=
  let! el := videoRef videoId in
  match el with
  | Some _ => emit (Pause videoId)
  | None => throw (TypeError "Cannot read properties of undefined (reading 'pause')")
  end.

(** ** Array helpers with JavaScript's conventions *)

(** [Array.prototype.findIndex]: [-1] when no element satisfies [p]. *)
Fixpoint findIndex {A} (p : A -> bool) (l : list A) : Z :=
  match l with
  | [] => (-1)%Z
  | x :: r =>
      if p x then 0%Z
      else let i := findIndex p r in
           if (i <? 0)%Z then (-1)%Z else (i + 1)%Z
  end.

(** [a % b] on integers: the remainder has the sign of [a]; [None] is
    [NaN], the result for [b = 0]. *)
Definition js_rem (a b : Z) : option Z :=
  if (b =? 0)%Z then None else Some (Z.rem a b).

(** [arr[i]]: [undefined] for [NaN] and outside the array. *)
Definition array_at {A} (l : list A) (i : option Z) : option A :=
  match i with
  | Some k => if (k <? 0)%Z then None else l !! Z.to_nat k
  | None => None
  end.

(** ** Fetching and grouping *)

(** [formatDuration] on a whole number of seconds. *)
Definition formatDuration (seconds : N) : string :=
  if (seconds =? 0)%N then "0:00"
  else
    let mins := (seconds / 60)%N in
    let secs := (seconds mod 60)%N in
    pretty mins +:+ ":" +:+ (if (secs <? 10)%N then "0" else "") +:+ pretty secs.

(** [video.category || 'uncategorized'] *)
Definition category_key (video : Video) : string :=
  js_or (category video) "uncategorized".

(** One step of the grouping [reduce]:
    [const category = video.category || 'uncategorized';
     if (!acc[category]) acc[category] = [];
     acc[category].push(video)]. *)
Definition group_step (acc : gmap string (list Video)) (video : Video)
  : gmap string (list Video) :=
  let category := category_key video in
  let acc := match acc !! category with
             | Some _ => acc
             | None => <[category := []]> acc
             end in
  alter (fun arr : list Video => (arr ++ [video])%list) category acc.

Definition groupByCategory (fetchedVideos : list Video) : gmap string (list Video) :=
  foldl group_step ∅ fetchedVideos.

Record InitialStates := {
  init_playing : gmap string bool;
  init_volume : gmap string Q;
  init_muted : gmap string bool;
  init_progress : gmap string Q;
  init_loaded : gmap string bool;
}.

Definition initial_step (acc : InitialStates) (video : Video) : InitialStates :=
  {| init_playing := <[id video := false]> (init_playing acc);
     init_volume := <[id video := (7 # 10)%Q]> (init_volume acc);
     init_muted := <[id video := true]> (init_muted acc);
     init_progress := <[id video := 0%Q]> (init_progress acc);
     init_loaded := <[id video := false]> (init_loaded acc) |}.

Definition initialStates_of (fetchedVideos : list Video) : InitialStates :=
  foldl initial_step
    {| init_playing := ∅; init_volume := ∅; init_muted := ∅;
       init_progress := ∅; init_loaded := ∅ |}
    fetchedVideos.

Section Fetch.
(** The random display fields: the string [getRandomViews()] returns
    for the [k]-th record, and [Math.floor(Math.random() * 300)] drawn
    for its duration. *)
Variable getRandomViews : nat -> string.
Variable randomBelow300 : nat -> N.

Definition toVideo (k : nat) (doc : QueryDocumentSnapshot) : Video :=
  let data := doc_data doc in
  {| id := default (doc_id doc) (data_id data);
     title := data_title data;
     channel := data_channel data;
     category := data_category data;
     thumbnail := data_thumbnail data;
     videoUrl := data_videoUrl data;
     description := data_description data;
     views := getRandomViews k;
     duration := formatDuration (randomBelow300 k + 60) |}.

Definition await_getDocs (collection : string)
    (outcome : JsError + list QueryDocumentSnapshot)
  : Eff World JsError (list QueryDocumentSnapshot) :=
  emit (GetDocs collection) >> settle outcome.

(** [fetchVideos], run against the [outcome] of the collection read. *)
Definition fetchVideos (outcome : JsError + list QueryDocumentSnapshot)
  : Eff World JsError unit :=
  try_finally
    (try_catch
       (setLoading true >>
        let! docs := await_getDocs "videos" outcome in
        let fetchedVideos := imap toVideo docs in
        let groupedVideos := groupByCategory fetchedVideos in
        setVideos groupedVideos >>
        setWorkouts groupedVideos >>
        let initialStates := initialStates_of fetchedVideos in
        setPlaying (fun _ => init_playing initialStates) >>
        setVolume (fun _ => init_volume initialStates) >>
        setMuted (fun _ => init_muted initialStates) >>
        setProgress (fun _ => init_progress initialStates) >>
        setVideoLoaded (fun _ => init_loaded initialStates))
       (fun error => console_error "Error fetching videos:"))
    (setLoading false).
End Fetch.

(** ** Handlers *)

Definition handleVideoLoaded (videoId : string) : Eff World JsError unit :=
  setVideoLoaded (fun prev => <[videoId := true]> prev).

Definition handlePlayPause (videoId : string) : Eff World JsError unit :=
  let! video := videoRef videoId in
  let! playing_now := gets (fun w => playing (state w)) in
  match video with
  | Some _ =>
      (if truthy_bool (playing_now !! videoId) then emit (Pause videoId)
       else play videoId) >>
      setPlaying (fun prev => <[videoId := negb (truthy_bool (prev !! videoId))]> prev)
  | None => ret tt
  end.

Definition handleFullScreen (videoId category : string) : Eff World JsError unit :=
  let! videoElement := videoRef videoId in
  match videoElement with
  | Some el =>
      setCurrentFullScreenVideo (Some {| fs_id := videoId; fs_category := category |}) >>
      setCurrentCategory (Some category) >>
      setIsFullScreen true >>
      setIsSmallScreen (fun _ => false) >>
      (if requestFullscreen el then emit (RequestFullscreen Standard videoId)
       else if webkitRequestFullscreen el then emit (RequestFullscreen Webkit videoId)
       else if msRequestFullscreen el then emit (RequestFullscreen Ms videoId)
       else ret tt) >>
      setPlaying (fun prev => <[videoId := true]> prev) >>
      assign_muted videoId false >>
      setMuted (fun prev => <[videoId := false]> prev) >>
      play videoId
  | None => ret tt
  end.

Definition handleExitFullScreen : Eff World JsError unit :=
  let! doc := gets document in
  (if exitFullscreen doc then emit (ExitFullscreen Standard)
   else if webkitExitFullscreen doc then emit (ExitFullscreen Webkit)
   else if msExitFullscreen doc then emit (ExitFullscreen Ms)
   else ret tt) >>
  setCurrentFullScreenVideo None >>
  setCurrentCategory None >>
  setIsFullScreen false >>
  setIsSmallScreen (fun _ => false).

Definition handleToggleSmallScreen : Eff World JsError unit :=
  setIsSmallScreen negb.

(** The listener of [fullscreenchange] and its two prefixed variants. *)
Definition handleFullscreenChange : Eff World JsError unit :=
  let! w := get in
  match fullscreenElement (document w), currentFullScreenVideo (state w) with
  | None, Some _ =>
      setCurrentFullScreenVideo None >>
      setCurrentCategory None >>
      setIsFullScreen false >>
      setIsSmallScreen (fun _ => false)
  | _, _ => ret tt
  end.

(** The browser changes which element is fullscreen (to [None] on an
    exit, whatever caused it) and dispatches the change event. *)
Definition fullscreenchange (el : option string) : Eff World JsError unit :=
  modify (fun w =>
    {| state := state w; videoRefs := videoRefs w;
       document := {| fullscreenElement := el;
                      exitFullscreen := exitFullscreen (document w);
                      webkitExitFullscreen := webkitExitFullscreen (document w);
                      msExitFullscreen := msExitFullscreen (document w) |};
       trace := trace w |}) >>
  handleFullscreenChange.

Definition handleMuteToggle (videoId : string) : Eff World JsError unit :=
  let! video := videoRef videoId in
  match video with
  | Some _ =>
      let! prev := gets (fun w => muted (state w)) in
      assign_muted videoId (negb (truthy_bool (prev !! videoId))) >>
      setMuted (fun prev => <[videoId := negb (truthy_bool (prev !! videoId))]> prev)
  | None => ret tt
  end.

(** [handleVolumeChange] on the number [parseFloat(value)] yields. *)
Definition handleVolumeChange (videoId : string) (volumeValue : Q)
  : Eff World JsError unit :=
  let! video := videoRef videoId in
  match video with
  | Some _ =>
      assign_volume videoId volumeValue >>
      (if Qlt_le_dec 0 volumeValue
       then assign_muted videoId false >>
            setMuted (fun prev => <[videoId := false]> prev)
       else ret tt) >>
      setVolume (fun prev => <[videoId := volumeValue]> prev)
  | None => ret tt
  end.

Definition handleNextVideo : Eff World JsError unit :=
  let! s := gets state in
  match currentFullScreenVideo s, currentCategory s with
  | Some current, Some cat =>
      if String.eqb cat "" then ret tt
      else
        match videos s !! cat with
        | None => throw (TypeError "Cannot read properties of undefined (reading 'findIndex')")
        | Some currentVideos =>
            let currentIndex :=
              findIndex (fun video => String.eqb (id video) (fs_id current)) currentVideos in
            let nextIndex := js_rem (currentIndex + 1) (Z.of_nat (length currentVideos)) in
            let nextVideo := array_at currentVideos nextIndex in
            setPlaying (fun prev => <[fs_id current := false]> prev) >>
            pause_unguarded (fs_id current) >>
            match nextVideo with
            | None => throw (TypeError "Cannot read properties of undefined (reading 'id')")
            | Some nextVideo =>
                setCurrentFullScreenVideo
                  (Some {| fs_id := id nextVideo; fs_category := cat |}) >>
                setPlaying (fun prev => <[id nextVideo := true]> prev) >>
                let! nextVideoElement := videoRef (id nextVideo) in
                match nextVideoElement with
                | Some _ =>
                    assign_currentTime (id nextVideo) 0 >>
                    assign_muted (id nextVideo) false >>
                    play (id nextVideo)
                | None => ret tt
                end
            end
        end
  | _, _ => ret tt
  end.

Definition handlePreviousVideo : Eff World JsError unit :=
  let! s := gets state in
  match currentFullScreenVideo s, currentCategory s with
  | Some current, Some cat =>
      if String.eqb cat "" then ret tt
      else
        match videos s !! cat with
        | None => throw (TypeError "Cannot read properties of undefined (reading 'findIndex')")
        | Some currentVideos =>
            let currentIndex :=
              findIndex (fun video => String.eqb (id video) (fs_id current)) currentVideos in
            let prevIndex :=
              js_rem (currentIndex - 1 + Z.of_nat (length currentVideos))
                     (Z.of_nat (length currentVideos)) in
            let prevVideo := array_at currentVideos prevIndex in
            setPlaying (fun prev => <[fs_id current := false]> prev) >>
            pause_unguarded (fs_id current) >>
            match prevVideo with
            | None => throw (TypeError "Cannot read properties of undefined (reading 'id')")
            | Some prevVideo =>
                setCurrentFullScreenVideo
                  (Some {| fs_id := id prevVideo; fs_category := cat |}) >>
                setPlaying (fun prev => <[id prevVideo := true]> prev) >>
                let! prevVideoElement := videoRef (id prevVideo) in
                match prevVideoElement with
                | Some _ =>
                    assign_currentTime (id prevVideo) 0 >>
                    assign_muted (id prevVideo) false >>
                    play (id prevVideo)
                | None => ret tt
                end
            end
        end
  | _, _ => ret tt
  end.

(** The two handlers differ in the index they compute only.  [navigate]
    is their common shape, with the index computation [target] (from the
    current index and the length of the playlist) as a parameter; it is
    used to state facts about both at once. *)
Definition navigate (target : Z -> Z -> option Z) : Eff World JsError unit :=
  let! s := gets state in
  match currentFullScreenVideo s, currentCategory s with
  | Some current, Some cat =>
      if String.eqb cat "" then ret tt
      else
        match videos s !! cat with
        | None => throw (TypeError "Cannot read properties of undefined (reading 'findIndex')")
        | Some currentVideos =>
            let currentIndex :=
              findIndex (fun video => String.eqb (id video) (fs_id current)) currentVideos in
            let newIndex := target currentIndex (Z.of_nat (length currentVideos)) in
            let newVideo := array_at currentVideos newIndex in
            setPlaying (fun prev => <[fs_id current := false]> prev) >>
            pause_unguarded (fs_id current) >>
            match newVideo with
            | None => throw (TypeError "Cannot read properties of undefined (reading 'id')")
            | Some newVideo =>
                setCurrentFullScreenVideo
                  (Some {| fs_id := id newVideo; fs_category := cat |}) >>
                setPlaying (fun prev => <[id newVideo := true]> prev) >>
                let! newVideoElement := videoRef (id newVideo) in
                match newVideoElement with
                | Some _ =>
                    assign_currentTime (id newVideo) 0 >>
                    assign_muted (id newVideo) false >>
                    play (id newVideo)
                | None => ret tt
                end
            end
        end
  | _, _ => ret tt
  end.

(** [(currentIndex + 1) % currentVideos.length] *)
Definition next_target (currentIndex len : Z) : option Z :=
  js_rem (currentIndex + 1) len.

(** [(currentIndex - 1 + currentVideos.length) % currentVideos.length] *)
Definition previous_target (currentIndex len : Z) : option Z :=
  js_rem (currentIndex - 1 + len) len.

(** ** What is rendered from the state *)

Inductive VolumeIcon := FiVolumeX | FiVolume2.

(** [volume[id] === 0] *)
Definition volume_is_zero (v : option Q) : bool :=
  match v with
  | Some q => Qeq_bool q 0
  | None => false
  end.

(** [muted[id] || volume[id] === 0 ? <FiVolumeX/> : <FiVolume2/>], the
    icon on the mute button of a card and of the fullscreen player. *)
Definition mute_icon (s : State) (videoId : string) : VolumeIcon :=
  if truthy_bool (muted s !! videoId) || volume_is_zero (volume s !! videoId)
  then FiVolumeX else FiVolume2.



(** ** Initial world *)

Definition initial_state : State :=
  {| videos := ∅; playing := ∅; volume := ∅; muted := ∅; progress := ∅;
     currentFullScreenVideo := None; currentCategory := None; videoLoaded := ∅;
     isFullScreen := false; isSmallScreen := false |}.

(** The session fields of the state. *)
Definition session_fields (s : State)
  : option FullScreenVideo * option string * bool * bool :=
  (currentFullScreenVideo s, currentCategory s, isFullScreen s, isSmallScreen s).

(** The effects issued between two worlds of one run. *)
Definition issued_since (w w' : World) : list Effect :=
  drop (length (trace w)) (trace w').

(** The invariant the data model states for the fullscreen session: the
    session record is set only while the browser is in fullscreen mode. *)
Definition session_only_while_fullscreen (w : World) : Prop :=
  is_Some (currentFullScreenVideo (state w)) ->
  is_Some (fullscreenElement (document w)).

(** ** Sample galleries *)

Definition stored_in (c : option string) : VideoData :=
  {| data_id := None; data_title := None; data_channel := None;
     data_category := c; data_thumbnail := None; data_videoUrl := None;
     data_description := None |}.

(** Three stored videos: two in category "yoga", one without category. *)
Definition sample_docs : list QueryDocumentSnapshot :=
  [ {| doc_id := "a"; doc_data := stored_in (Some "yoga") |};
    {| doc_id := "b"; doc_data := stored_in (Some "yoga") |};
    {| doc_id := "c"; doc_data := stored_in None |} ].

Definition sample_views (k : nat) : string := "1.0K".
Definition sample_draw (k : nat) : N := N.of_nat (7 * k).


(** A card's element as first rendered ([muted={true}]), in a browser
    with the standard fullscreen methods. *)
Definition card_element : HTMLVideoElement :=
  {| el_muted := true; el_volume := 1; el_currentTime := 5;
     requestFullscreen := true; webkitRequestFullscreen := false;
     msRequestFullscreen := false |}.

(** The same in a browser that offers no fullscreen request method on
    elements. *)
Definition element_without_fullscreen_api : HTMLVideoElement :=
  {| el_muted := true; el_volume := 1; el_currentTime := 0;
     requestFullscreen := false; webkitRequestFullscreen := false;
     msRequestFullscreen := false |}.

Definition windowed_document : Document :=
  {| fullscreenElement := None; exitFullscreen := true;
     webkitExitFullscreen := false; msExitFullscreen := false |}.

(** The component as mounted, with the cards of the three sample videos. *)
Definition mounted (el : HTMLVideoElement) : World :=
  {| state := initial_state;
     videoRefs := <["a" := el]> (<["b" := el]> (<["c" := el]> ∅));
     document := windowed_document;
     trace := [] |}.

(** After the initial fetch has returned the sample documents. *)
Definition gallery (el : HTMLVideoElement) : World :=
  world_after (fetchVideos sample_views sample_draw (inr sample_docs)) (mounted el).

(** The fullscreen control of video "a" has been used, and the browser
    has entered fullscreen mode on it. *)
Definition fullscreen_on_a : World :=
  world_after
    (handleFullScreen "a" "yoga" >> fullscreenchange (Some "a") >> handleToggleSmallScreen)
    (gallery card_element).

(** Video "a" unmuted with its volume dragged to zero. *)
Definition silent_a : World :=
  world_after (handleMuteToggle "a" >> handleVolumeChange "a" 0) (gallery card_element).

(** A gallery whose only category holds a single video that is
    fullscreen. *)
Definition single_video_fullscreen : World :=
  world_after
    (fetchVideos sample_views sample_draw
       (inr [ {| doc_id := "a"; doc_data := stored_in (Some "yoga") |} ]) >>
     handleFullScreen "a" "yoga")
    (mounted card_element).

(** ** Clicking a card *)

Definition handleVideoClick (videoId : string) : Eff World JsError unit :=
  let! video := videoRef videoId in
  let! loaded := gets (fun w => videoLoaded (state w)) in
  match video with
  | Some _ =>
      if negb (truthy_bool (loaded !! videoId))
      then assign_muted videoId true >>
           play videoId >>
           setPlaying (fun prev => <[videoId := true]> prev)
      else handlePlayPause videoId
  | None => ret tt
  end.

(** ** What the fullscreen player looks up *)

(** The property key an optional string is used as: [obj[null]] reads the
    property named "null". *)
Definition property_key (o : option string) : string :=
  match o with
  | Some c => c
  | None => "null"
  end.

(** [videos[currentCategory].find((v) => v.id === currentFullScreenVideo.id)],
    whose [videoUrl], [thumbnail], [duration] and [title] the fullscreen
    player reads when a session is active.  [None]: nothing is rendered;
    [Some (inl _)]: rendering throws. *)
Definition fullscreen_player_video (s : State) : option (JsError + Video) :=
  match currentFullScreenVideo s with
  | None => None
  | Some current =>
      Some
        match videos s !! property_key (currentCategory s) with
        | None => inl (TypeError "Cannot read properties of undefined (reading 'find')")
        | Some currentVideos =>
            match List.find (fun v => String.eqb (id v) (fs_id current)) currentVideos with
            | Some v => inr v
            | None => inl (TypeError "Cannot read properties of undefined (reading 'videoUrl')")
            end
        end
  end.

(** A session that names a video of the playlist of its category, the
    category being the current one. *)
Definition session_well_formed (s : State) : Prop :=
  forall current,
    currentFullScreenVideo s = Some current ->
    currentCategory s = Some (fs_category current) /\
    exists currentVideos video,
      videos s !! fs_category current = Some currentVideos /\
      video ∈ currentVideos /\
      id video = fs_id current.

(** The decimal digit of a number below ten. *)
Definition decimal_digit (k : N) : ascii := ascii_of_N (48 + k).



(** The seconds of a minute as printed by [formatDuration]. *)
Definition two_digits (k : N) : string :=
  (if (k <? 10)%N then "0" else "") +:+ pretty k.

(** The calls a playlist step may make. *)
Definition is_playback_call (e : Effect) : bool :=
  match e with
  | Pause _ | Play _ => true
  | _ => false
  end.

(** Running a sequence of handlers one after the other. *)
Definition run_all (handlers : list (Eff World JsError unit)) (w : World) : World :=
  foldl (fun w h => world_after h w) w handlers.

(** ** More sample worlds *)

(** Next pressed once from video "a": video "b", the last of its
    playlist, is the active one. *)
Definition fullscreen_on_b : World :=
  world_after handleNextVideo fullscreen_on_a.

(** The gallery with video "a" playing in its card. *)
Definition playing_a : World :=
  world_after (handleVideoClick "a" >> handleVideoLoaded "a") (gallery card_element).

(** The gallery after its cards have been taken off the page. *)
Definition unmounted_gallery : World :=
  {| state := state (gallery card_element); videoRefs := ∅;
     document := windowed_document; trace := [] |}.

(** A session whose outgoing element is no longer mounted. *)
Definition fullscreen_unmounted : World :=
  {| state := state fullscreen_on_a; videoRefs := ∅;
     document := document fullscreen_on_a; trace := [] |}.

End VideoFetch.

(** * Properties of the registration dialog *)

Module RegisterMemberSpec.
Import RegisterMember.

Local Ltac run_dialog :=
  unfold world_after, result_of, handleSubmit, onSubmit, try_catch,
    await_createUser, await_addDoc, new_Date, setFormError, reset, onClose,
    toast_success, toast_error, emit, settle, modify, gets, get, bind, ret;
  cbn.

Lemma issued_since_app (d d' : Dialog) (l : list Effect) :
  trace d' = (trace d ++ l)%list -> issued_since d d' = l.
Proof.
  intros H. unfold issued_since. rewrite H. by rewrite drop_app_length.
Qed.

Lemma code_is_of (error : FirebaseError) (c : string) :
  code error = Some c -> code_is error c = true.
Proof.
  intros H. unfold code_is. rewrite H. apply String.eqb_refl.
Qed.

(** What [onSubmit] issues when the identity call is rejected: the two
    [setFormError] calls around the one service call, and the error toast. *)
Lemma onSubmit_identity_rejected (svc : Services) (d : Dialog)
    (data : MemberFormData) (error : FirebaseError) :
  createUserWithEmailAndPassword svc (email data) (password data) = inl error ->
  let d' := world_after (onSubmit svc data) d in
  formError d' = Some (errorMessage_of error) /\
  issued_since d d' =
    [SetFormError None; CreateUser (email data) (password data);
     SetFormError (Some (errorMessage_of error)); ToastError (errorMessage_of error)].
Proof.
  intros Hrej d'. subst d'. run_dialog. rewrite Hrej. cbn.
  split; [reflexivity |].
  apply issued_since_app. cbn. by rewrite <- !app_assoc.
Qed.

(** C1. When identity creation is rejected with the duplicate-email code,
    the message shown (the [formError] cell and the error toast) is
    exactly "Email already in use.", and no write to the document store
    is issued: the only external call of the submission is the rejected
    identity call. *)
Theorem onSubmit_duplicate_email (svc : Services) (d : Dialog)
    (data : MemberFormData) (error : FirebaseError) :
  createUserWithEmailAndPassword svc (email data) (password data) = inl error ->
  code error = Some "auth/email-already-in-use" ->
  let d' := world_after (onSubmit svc data) d in
  formError d' = Some "Email already in use." /\
  issued_since d d' =
    [SetFormError None; CreateUser (email data) (password data);
     SetFormError (Some "Email already in use."); ToastError "Email already in use."] /\
  List.filter is_store_write (issued_since d d') = [].
Proof.
  intros Hrej Hcode d'.
  destruct (onSubmit_identity_rejected svc d data error Hrej) as [Hmsg Htrace].
  assert (Hm : errorMessage_of error = "Email already in use.").
  { unfold errorMessage_of. by rewrite (code_is_of _ _ Hcode). }
  rewrite Hm in Hmsg, Htrace. subst d'.
  split; [exact Hmsg |]. split; [exact Htrace |].
  rewrite Htrace. reflexivity.
Qed.

Lemma onSubmit_duplicate_email_witness :
  createUserWithEmailAndPassword services_rejecting_duplicate (email ada) (password ada)
    = inl duplicate_email_error /\
  code duplicate_email_error = Some "auth/email-already-in-use" /\
  formError (world_after (onSubmit services_rejecting_duplicate ada) initial)
    = Some "Email already in use." /\
  List.filter is_store_write
    (issued_since initial (world_after (onSubmit services_rejecting_duplicate ada) initial))
    = [].
Proof.
  split; [reflexivity |]. split; [reflexivity |].
  pose proof (onSubmit_duplicate_email services_rejecting_duplicate initial ada
                duplicate_email_error eq_refl eq_refl) as (Hmsg & _ & Hnone).
  split; [exact Hmsg | exact Hnone].
Defined.

(** C9. When identity creation succeeds and the profile write and the
    notification write both succeed, the form fields are back at their
    defaults, the close callback is called, and the success notification
    is issued exactly once (as are reset and close), after the three
    service calls.  The timestamps of the two records are the clock
    readings at the writes: two, respectively three, effects into the
    submission. *)
Theorem onSubmit_success (svc : Services) (d : Dialog)
    (data : MemberFormData) (user : UserCredential) :
  let t_member := newDate svc (length (trace d) + 2) in
  let t_note := newDate svc (length (trace d) + 3) in
  let note := NotificationDoc ("New member registered: " +:+ name data) t_note in
  createUserWithEmailAndPassword svc (email data) (password data) = inr user ->
  addDoc svc "members" (MemberDoc data (uid user) t_member) = inr tt ->
  addDoc svc "notifications" note = inr tt ->
  let d' := world_after (onSubmit svc data) d in
  values d' = defaultValues /\
  formError d' = None /\
  issued_since d d' =
    [SetFormError None; CreateUser (email data) (password data);
     AddDoc "members" (MemberDoc data (uid user) t_member);
     AddDoc "notifications" note;
     ToastSuccess "Member registered successfully!"; Reset; OnClose] /\
  length (List.filter is_toast_success (issued_since d d')) = 1 /\
  length (List.filter is_reset (issued_since d d')) = 1 /\
  length (List.filter is_close (issued_since d d')) = 1.
Proof.
  intros t_member t_note note Hauth Hmember Hnote d'.
  assert (Hrun : values d' = defaultValues /\ formError d' = None /\
                 trace d' = (trace d ++
                   [SetFormError None; CreateUser (email data) (password data);
                    AddDoc "members" (MemberDoc data (uid user) t_member);
                    AddDoc "notifications" note;
                    ToastSuccess "Member registered successfully!"; Reset; OnClose])%list).
  { assert (E2 : forall a b : Effect,
              length ((trace d ++ [a]) ++ [b]) = length (trace d) + 2).
    { intros a b. rewrite <- app_assoc, List.length_app. cbn. lia. }
    assert (E3 : forall a b c : Effect,
              length (((trace d ++ [a]) ++ [b]) ++ [c]) = length (trace d) + 3).
    { intros a b c. rewrite <- !app_assoc, List.length_app. cbn. lia. }
    subst d'. run_dialog. rewrite Hauth. cbn.
    rewrite E2. fold t_member. rewrite Hmember. cbn.
    rewrite E3. fold t_note. fold note. rewrite Hnote. cbn.
    repeat split. by rewrite <- !app_assoc. }
  destruct Hrun as (Hvalues & Herr & Htrace).
  apply issued_since_app in Htrace.
  repeat split; try assumption; rewrite Htrace; reflexivity.
Qed.

Lemma onSubmit_success_witness :
  createUserWithEmailAndPassword services_accepting (email ada) (password ada)
    = inr {| uid := "uid-ada@example.org" |} /\
  values (world_after (onSubmit services_accepting ada) (fill ada initial)) = defaultValues /\
  length (List.filter is_toast_success
            (issued_since (fill ada initial)
               (world_after (onSubmit services_accepting ada) (fill ada initial)))) = 1.
Proof.
  split; [reflexivity |].
  pose proof (onSubmit_success services_accepting (fill ada initial) ada
                {| uid := "uid-ada@example.org" |} eq_refl eq_refl eq_refl)
    as (Hvalues & _ & _ & Honce & _).
  split; [exact Hvalues | exact Honce].
Defined.

(** C8. When the name, the e-mail address or the password is empty,
    [handleSubmit] reports a field error, does not run the submit
    callback, and issues nothing: no identity creation, no profile write,
    no notification write. *)
Theorem handleSubmit_blocks_empty_fields (svc : Services) (d : Dialog) :
  name (values d) = "" \/ email (values d) = "" \/ password (values d) = "" ->
  let d' := world_after (handleSubmit (onSubmit svc)) d in
  is_valid (errors d') = false /\
  trace d' = trace d /\
  List.filter is_external_call (issued_since d d') = [] /\
  (name (values d) = "" -> err_name (errors d') = Some "Name is required") /\
  (email (values d) = "" -> err_email (errors d') = Some "Email is required") /\
  (password (values d) = "" -> err_password (errors d') = Some "Password is required").
Proof.
  intros Hempty d'.
  assert (Hinvalid : is_valid (validate (values d)) = false).
  { unfold is_valid, validate. cbn.
    destruct Hempty as [H | [H | H]]; rewrite H; cbn.
    - reflexivity.
    - by destruct (validateField name_options _).
    - destruct (validateField name_options _); [done |].
      by destruct (validateField email_options _). }
  assert (Hd' : d' = {| formError := formError d; values := values d;
                        errors := validate (values d); trace := trace d |}).
  { subst d'. run_dialog. by rewrite Hinvalid. }
  rewrite Hd'. cbn.
  split; [exact Hinvalid |]. split; [reflexivity |].
  split; [unfold issued_since; cbn; by rewrite drop_all |].
  repeat split; intros ->; reflexivity.
Qed.

Lemma handleSubmit_blocks_empty_fields_witness :
  (name (values (fill no_password initial)) = "" \/
   email (values (fill no_password initial)) = "" \/
   password (values (fill no_password initial)) = "") /\
  trace (world_after (handleSubmit (onSubmit services_accepting)) (fill no_password initial))
    = [].
Proof.
  assert (H : name (values (fill no_password initial)) = "" \/
              email (values (fill no_password initial)) = "" \/
              password (values (fill no_password initial)) = "")
    by (right; right; reflexivity).
  split; [exact H |].
  exact (proj1 (proj2 (handleSubmit_blocks_empty_fields services_accepting
                         (fill no_password initial) H))).
Defined.

End RegisterMemberSpec.

(** * Properties of the video gallery *)

Module VideoFetchSpec.
Import VideoFetch.

(** ** Grouping by category *)

Section Grouping.
Implicit Types (acc : gmap string (list Video)) (video : Video) (k : string).




End Grouping.



(** ** Running handlers *)

(** Handlers are run by call-by-value evaluation of the monad and of the
    state updates, on a world given by its fields. *)
Local Ltac run_handler :=
  cbv beta iota zeta delta
    [world_after result_of fetchVideos await_getDocs
     handleFullScreen handleExitFullScreen handleFullscreenChange
     fullscreenchange handleMuteToggle
     navigate pause_unguarded videoRef play assign_muted assign_currentTime
     assign_volume setVideos setPlaying setVolume setMuted setProgress
     setCurrentFullScreenVideo setCurrentCategory setVideoLoaded
     setIsFullScreen setIsSmallScreen setLoading setWorkouts console_error
     emit try_finally try_catch settle throw modify gets get bind ret
     on_state on_refs session_fields fst snd
     state videoRefs document trace
     videos playing volume muted progress currentFullScreenVideo
     currentCategory videoLoaded isFullScreen isSmallScreen
     fullscreenElement exitFullscreen webkitExitFullscreen msExitFullscreen].

Local Ltac destruct_world w :=
  destruct w as [[vs pl vol mu pr cfs cc vl ifs iss] refs [fse ex wex mex] tr];
  cbn in * |-.

Local Ltac run_on w := destruct_world w; run_handler.

Lemma issued_since_trace (w w' : World) (l : list Effect) :
  trace w' = (trace w ++ l)%list -> issued_since w w' = l.
Proof.
  intros H. unfold issued_since. rewrite H. by rewrite drop_app_length.
Qed.

(** ** The initial fetch *)

Section FetchFacts.
Variable getRandomViews : nat -> string.
Variable randomBelow300 : nat -> N.

(** A failed read: the error is logged, nothing else happens between
    the two [setLoading] calls, and the state is untouched. *)
Lemma fetchVideos_failure (error : JsError) (w : World) :
  let w' := world_after (fetchVideos getRandomViews randomBelow300 (inl error)) w in
  issued_since w w' =
    [SetLoading true; GetDocs "videos"; ConsoleError "Error fetching videos:";
     SetLoading false] /\
  state w' = state w /\
  result_of (fetchVideos getRandomViews randomBelow300 (inl error)) w = inr tt.
Proof.
  intros w'. subst w'. run_on w. split; [| done].
  apply issued_since_trace. cbn. by rewrite <- !app_assoc.
Qed.

(** A successful read: the groups are stored and reported once. *)
Lemma fetchVideos_success (docs : list QueryDocumentSnapshot) (w : World) :
  let w' := world_after (fetchVideos getRandomViews randomBelow300 (inr docs)) w in
  let fetchedVideos := imap (toVideo getRandomViews randomBelow300) docs in
  issued_since w w' =
    [SetLoading true; GetDocs "videos";
     SetWorkouts (groupByCategory fetchedVideos); SetLoading false] /\
  videos (state w') = groupByCategory fetchedVideos /\
  muted (state w') = init_muted (initialStates_of fetchedVideos) /\
  volume (state w') = init_volume (initialStates_of fetchedVideos) /\
  result_of (fetchVideos getRandomViews randomBelow300 (inr docs)) w = inr tt.
Proof.
  intros w' fetchedVideos. subst w' fetchedVideos. run_on w. split; [| done].
  apply issued_since_trace. cbn. by rewrite <- !app_assoc.
Qed.
End FetchFacts.

(** C10. In every run of the fetch, [setLoading(true)] is the first call
    and precedes the collection read, [setLoading(false)] is the last
    call, and the flag is not touched in between, whether the read
    succeeds or fails.  When the read fails, [setWorkouts] is not called
    and the component state is unchanged, so the grouped videos, empty
    before the initial fetch, remain empty. *)
Theorem fetchVideos_loading_flag (getRandomViews : nat -> string)
    (randomBelow300 : nat -> N)
    (outcome : JsError + list QueryDocumentSnapshot) (w : World) :
  let w' := world_after (fetchVideos getRandomViews randomBelow300 outcome) w in
  (exists between,
     issued_since w w' =
       SetLoading true :: GetDocs "videos" :: (between ++ [SetLoading false])%list /\
     (forall b, SetLoading b ∉ between) /\
     (forall c, GetDocs c ∉ between)) /\
  (forall error, outcome = inl error ->
     (forall g, SetWorkouts g ∉ issued_since w w') /\
     state w' = state w /\
     (videos (state w) = ∅ -> videos (state w') = ∅)).
Proof.
  intros w'. subst w'. split.
  - destruct outcome as [error | docs].
    + destruct (fetchVideos_failure getRandomViews randomBelow300 error w) as (Ht & _).
      exists [ConsoleError "Error fetching videos:"]. split; [exact Ht |].
      split; intros x Hx; by apply list_elem_of_singleton in Hx.
    + destruct (fetchVideos_success getRandomViews randomBelow300 docs w) as (Ht & _).
      eexists [SetWorkouts _]. split; [exact Ht |].
      split; intros x Hx; by apply list_elem_of_singleton in Hx.
  - intros error ->.
    destruct (fetchVideos_failure getRandomViews randomBelow300 error w) as (Ht & Hs & _).
    split; [| split].
    + intros g. rewrite Ht. rewrite !not_elem_of_cons. repeat split; try done.
      apply not_elem_of_nil.
    + exact Hs.
    + by rewrite Hs.
Qed.

Lemma fetchVideos_loading_flag_witness :
  videos (state (world_after
                   (fetchVideos sample_views sample_draw (inl (ServiceError "unavailable")))
                   (mounted card_element))) = ∅.
Proof.
  apply (proj2 (fetchVideos_loading_flag sample_views sample_draw
                  (inl (ServiceError "unavailable")) (mounted card_element))
           (ServiceError "unavailable") eq_refl).
  reflexivity.
Defined.

(** ** Mute toggle *)




(** ** The fullscreen session *)

Lemma handleExitFullScreen_session (w : World) :
  session_fields (state (world_after handleExitFullScreen w))
    = (None, None, false, false).
Proof.
  run_on w. by destruct ex, wex, mex.
Qed.

(** A change event that finds no fullscreen element clears an active
    session and leaves an empty one empty. *)
Lemma fullscreen_exit_event_session (w : World) :
  let w' := world_after (fullscreenchange None) w in
  currentFullScreenVideo (state w') = None /\
  (is_Some (currentFullScreenVideo (state w)) ->
   session_fields (state w') = (None, None, false, false)).
Proof.
  intros w'. subst w'. run_on w. destruct cfs as [current|].
  - done.
  - split; [done |]. by intros [? ?].
Qed.

(** Entering: the session is recorded whenever the element is mounted;
    the document is not consulted and not changed. *)
Lemma handleFullScreen_session (w : World) (videoId category : string)
    (el : HTMLVideoElement) :
  videoRefs w !! videoId = Some el ->
  let w' := world_after (handleFullScreen videoId category) w in
  session_fields (state w') =
    (Some {| fs_id := videoId; fs_category := category |}, Some category, true, false) /\
  muted (state w') !! videoId = Some false /\
  playing (state w') !! videoId = Some true /\
  el_muted <$> videoRefs w' !! videoId = Some false /\
  document w' = document w.
Proof.
  intros Hel w'. subst w'. run_on w. rewrite Hel.
  destruct el as [m v t [|] [|] [|]]; cbn;
    rewrite ?lookup_insert_eq, ?lookup_alter_eq, ?Hel; done.
Qed.

(** C6. From a state with an active session, a native fullscreen exit
    (the change event with no fullscreen element) and the exit control
    lead to the same session fields: no active video, no active
    category, fullscreen flag and compact flag both off. *)
Theorem native_exit_matches_exit_control (w : World) :
  is_Some (currentFullScreenVideo (state w)) ->
  session_fields (state (world_after (fullscreenchange None) w))
    = session_fields (state (world_after handleExitFullScreen w)) /\
  session_fields (state (world_after (fullscreenchange None) w))
    = (None, None, false, false).
Proof.
  intros Hactive.
  destruct (fullscreen_exit_event_session w) as (_ & Hevent).
  rewrite handleExitFullScreen_session. split; by apply Hevent.
Qed.

Lemma native_exit_matches_exit_control_witness :
  is_Some (currentFullScreenVideo (state fullscreen_on_a)) /\
  isSmallScreen (state fullscreen_on_a) = true /\
  session_fields (state (world_after (fullscreenchange None) fullscreen_on_a))
    = session_fields (state (world_after handleExitFullScreen fullscreen_on_a)).
Proof.
  assert (H : is_Some (currentFullScreenVideo (state fullscreen_on_a)))
    by (vm_compute; eauto).
  split; [exact H |]. split; [vm_compute; reflexivity |].
  exact (proj1 (native_exit_matches_exit_control fullscreen_on_a H)).
Defined.

(** C5, the claim as stated fails: where the browser offers no
    fullscreen request method, the fullscreen control records a session
    although no request is made and the browser never is in fullscreen
    mode. *)
Lemma session_without_browser_fullscreen :
  let w := gallery element_without_fullscreen_api in
  let w' := world_after (handleFullScreen "a" "yoga") w in
  session_only_while_fullscreen w /\
  currentFullScreenVideo (state w') = Some {| fs_id := "a"; fs_category := "yoga" |} /\
  fullscreenElement (document w') = None /\
  issued_since w w' = [Play "a"] /\
  ~ session_only_while_fullscreen w'.
Proof.
  cbn zeta. split; [| split; [| split; [| split]]].
  - intros [x Hx]. vm_compute in Hx. discriminate.
  - vm_compute. reflexivity.
  - vm_compute. reflexivity.
  - vm_compute. reflexivity.
  - intros Hinv. destruct Hinv as [x Hx].
    + vm_compute. eauto.
    + vm_compute in Hx. discriminate.
Qed.

(** C5, as the code has it.  The fullscreen control records the session
    as soon as the video's element is mounted, without consulting or
    changing the document's fullscreen element; and every change event
    that finds no fullscreen element, whatever caused the exit, leaves
    the session empty and, when one was active, all four session fields
    reset. *)
Theorem session_set_on_enter_cleared_on_exit (w : World) :
  (forall videoId category el,
     videoRefs w !! videoId = Some el ->
     let w' := world_after (handleFullScreen videoId category) w in
     currentFullScreenVideo (state w') =
       Some {| fs_id := videoId; fs_category := category |} /\
     currentCategory (state w') = Some category /\
     document w' = document w) /\
  (let w' := world_after (fullscreenchange None) w in
   currentFullScreenVideo (state w') = None /\
   (is_Some (currentFullScreenVideo (state w)) ->
    session_fields (state w') = (None, None, false, false))).
Proof.
  split.
  - intros videoId category el Hel w'.
    destruct (handleFullScreen_session w videoId category el Hel) as (Hs & _ & _ & _ & Hd).
    fold w' in Hs, Hd. unfold session_fields in Hs.
    injection Hs as H1 H2 _ _. done.
  - apply fullscreen_exit_event_session.
Qed.

Lemma session_set_on_enter_cleared_on_exit_witness :
  videoRefs (gallery card_element) !! "a" = Some card_element /\
  currentCategory (state (world_after (handleFullScreen "a" "yoga") (gallery card_element)))
    = Some "yoga" /\
  is_Some (currentFullScreenVideo (state fullscreen_on_a)) /\
  session_fields (state (world_after (fullscreenchange None) fullscreen_on_a))
    = (None, None, false, false).
Proof.
  assert (Hel : videoRefs (gallery card_element) !! "a" = Some card_element)
    by (vm_compute; reflexivity).
  assert (Hactive : is_Some (currentFullScreenVideo (state fullscreen_on_a)))
    by (vm_compute; eauto).
  split; [exact Hel |].
  split.
  - exact (proj1 (proj2 (proj1 (session_set_on_enter_cleared_on_exit (gallery card_element))
                           "a" "yoga" card_element Hel))).
  - split; [exact Hactive |].
    exact (proj2 (proj2 (session_set_on_enter_cleared_on_exit fullscreen_on_a)) Hactive).
Defined.

(** ** Playlist navigation *)

Lemma findIndex_range {A} (p : A -> bool) (l : list A) :
  findIndex p l = (-1)%Z \/ (0 <= findIndex p l < Z.of_nat (length l))%Z.
Proof.
  induction l as [|x l IH]; cbn [findIndex length]; [by left |].
  destruct (p x); [right; lia |].
  destruct (Z.ltb_spec (findIndex p l) 0); [by left | right; lia].
Qed.

(** From a valid index, the two targets are the neighbours modulo the
    length of the playlist. *)
Lemma next_index_wraps {A} (l : list A) (i : Z) :
  (0 <= i < Z.of_nat (length l))%Z ->
  array_at l (js_rem (i + 1) (Z.of_nat (length l)))
    = l !! Z.to_nat ((i + 1) mod Z.of_nat (length l)).
Proof.
  intros Hi. unfold js_rem, array_at.
  destruct (Z.eqb_spec (Z.of_nat (length l)) 0) as [|Hlen]; [lia |].
  rewrite Z.rem_mod_nonneg by lia.
  pose proof (Z.mod_pos_bound (i + 1) (Z.of_nat (length l))).
  destruct (Z.ltb_spec ((i + 1) mod Z.of_nat (length l)) 0); [lia | done].
Qed.

Lemma previous_index_wraps {A} (l : list A) (i : Z) :
  (0 <= i < Z.of_nat (length l))%Z ->
  array_at l (js_rem (i - 1 + Z.of_nat (length l)) (Z.of_nat (length l)))
    = l !! Z.to_nat ((i - 1) mod Z.of_nat (length l)).
Proof.
  intros Hi. unfold js_rem, array_at.
  destruct (Z.eqb_spec (Z.of_nat (length l)) 0) as [|Hlen]; [lia |].
  rewrite Z.rem_mod_nonneg by lia.
  replace (i - 1 + Z.of_nat (length l))%Z
    with (i - 1 + 1 * Z.of_nat (length l))%Z by lia.
  rewrite Z.mod_add by lia.
  pose proof (Z.mod_pos_bound (i - 1) (Z.of_nat (length l))).
  destruct (Z.ltb_spec ((i - 1) mod Z.of_nat (length l)) 0); [lia | done].
Qed.

Lemma handleNextVideo_navigate : handleNextVideo = navigate next_target.
Proof. reflexivity. Qed.

Lemma handlePreviousVideo_navigate : handlePreviousVideo = navigate previous_target.
Proof. reflexivity. Qed.

(** What a navigation step does when the playlist yields a target and
    both elements are mounted: the outgoing element is paused, the
    session moves to the target, whose element is rewound, has its
    [muted] property cleared and is played.  The [muted] flags of the
    state are not among the things it updates. *)
Lemma navigate_effects (target : Z -> Z -> option Z) (w : World)
    (current : FullScreenVideo) (cat : string) (currentVideos : list Video)
    (newVideo : Video) (outgoing incoming : HTMLVideoElement) :
  currentFullScreenVideo (state w) = Some current ->
  currentCategory (state w) = Some cat ->
  cat <> "" ->
  videos (state w) !! cat = Some currentVideos ->
  array_at currentVideos
    (target (findIndex (fun video => String.eqb (id video) (fs_id current)) currentVideos)
            (Z.of_nat (length currentVideos))) = Some newVideo ->
  videoRefs w !! fs_id current = Some outgoing ->
  videoRefs w !! id newVideo = Some incoming ->
  let w' := world_after (navigate target) w in
  issued_since w w' = [Pause (fs_id current); Play (id newVideo)] /\
  currentFullScreenVideo (state w') =
    Some {| fs_id := id newVideo; fs_category := cat |} /\
  playing (state w') !! id newVideo = Some true /\
  el_currentTime <$> videoRefs w' !! id newVideo = Some 0%Q /\
  el_muted <$> videoRefs w' !! id newVideo = Some false /\
  muted (state w') = muted (state w).
Proof.
  intros Hcur Hcat Hne Hvideos Htarget Hout Hin w'. subst w'.
  apply String.eqb_neq in Hne.
  destruct_world w. subst cfs cc. run_handler.
  rewrite Hne, Hvideos, Hout, Htarget, Hin.
  split; [apply issued_since_trace; cbn; by rewrite <- !app_assoc |].
  cbn. rewrite !lookup_alter_eq, Hin, lookup_insert_eq. done.
Qed.

(** Next, from a playlist in which the active video is found: the
    session moves to the following position, the first after the last. *)
Lemma handleNextVideo_neighbour (w : World)
    (current : FullScreenVideo) (cat : string) (currentVideos : list Video)
    (nextVideo : Video) (outgoing incoming : HTMLVideoElement) :
  let currentIndex :=
    findIndex (fun video => String.eqb (id video) (fs_id current)) currentVideos in
  currentFullScreenVideo (state w) = Some current ->
  currentCategory (state w) = Some cat ->
  cat <> "" ->
  videos (state w) !! cat = Some currentVideos ->
  (0 <= currentIndex)%Z ->
  currentVideos !! Z.to_nat ((currentIndex + 1) mod Z.of_nat (length currentVideos))
    = Some nextVideo ->
  videoRefs w !! fs_id current = Some outgoing ->
  videoRefs w !! id nextVideo = Some incoming ->
  let w' := world_after handleNextVideo w in
  issued_since w w' = [Pause (fs_id current); Play (id nextVideo)] /\
  currentFullScreenVideo (state w') =
    Some {| fs_id := id nextVideo; fs_category := cat |} /\
  playing (state w') !! id nextVideo = Some true /\
  el_currentTime <$> videoRefs w' !! id nextVideo = Some 0%Q /\
  el_muted <$> videoRefs w' !! id nextVideo = Some false /\
  muted (state w') = muted (state w).
Proof.
  intros currentIndex Hcur Hcat Hne Hvideos Hfound Hnext Hout Hin.
  rewrite handleNextVideo_navigate.
  apply (navigate_effects next_target w current cat currentVideos nextVideo
           outgoing incoming); try done.
  unfold next_target. fold currentIndex.
  rewrite next_index_wraps; [done |].
  pose proof (findIndex_range
                (fun video => String.eqb (id video) (fs_id current)) currentVideos)
    as Hrange.
  subst currentIndex. lia.
Qed.

(** No navigation step changes the [muted] flags of the state, whatever
    the world it starts from. *)
Lemma navigate_keeps_muted_flags (target : Z -> Z -> option Z) (w : World) :
  muted (state (world_after (navigate target) w)) = muted (state w).
Proof.
  run_on w.
  destruct cfs as [current|]; [| done].
  destruct cc as [cat|]; [| done].
  destruct (String.eqb cat ""); [done |].
  destruct (vs !! cat) as [currentVideos|]; [| done].
  destruct (refs !! fs_id current); [| done].
  destruct (array_at currentVideos _) as [newVideo|]; [| done].
  by destruct (refs !! id newVideo).
Qed.

(** The session after a navigation step over a playlist of one video
    that is the active one. *)
Lemma navigate_single_video (target : Z -> Z -> option Z) (w : World)
    (current : FullScreenVideo) (cat : string) (video : Video) :
  currentFullScreenVideo (state w) = Some current ->
  currentCategory (state w) = Some cat ->
  videos (state w) !! cat = Some [video] ->
  id video = fs_id current ->
  target 0%Z 1%Z = Some 0%Z ->
  fs_id <$> currentFullScreenVideo (state (world_after (navigate target) w))
    = Some (fs_id current).
Proof.
  intros Hcur Hcat Hvideos Hid Htarget.
  destruct_world w. subst cfs cc. run_handler.
  destruct (String.eqb cat ""); [done |].
  rewrite Hvideos. cbn. rewrite Hid, String.eqb_refl. cbn.
  change (Z.of_nat 1) with 1%Z. rewrite Htarget. cbn.
  change ([video] !! Z.to_nat 0) with (Some video).
  destruct (refs !! fs_id current) eqn:Hout; run_handler; [| done].
  by rewrite Hid, Hout.
Qed.

(** C7. In a session whose category holds exactly one video, the active
    one, the index arithmetic of both directions maps index 0 of a
    playlist of length 1 to index 0, and after Next as well as after
    Previous the active video is the same video. *)
Theorem navigation_single_video_fixed_point (w : World)
    (current : FullScreenVideo) (cat : string) (video : Video) :
  currentFullScreenVideo (state w) = Some current ->
  currentCategory (state w) = Some cat ->
  videos (state w) !! cat = Some [video] ->
  id video = fs_id current ->
  js_rem (0 + 1) 1 = Some 0%Z /\
  js_rem (0 - 1 + 1) 1 = Some 0%Z /\
  fs_id <$> currentFullScreenVideo (state (world_after handleNextVideo w))
    = Some (fs_id current) /\
  fs_id <$> currentFullScreenVideo (state (world_after handlePreviousVideo w))
    = Some (fs_id current).
Proof.
  intros Hcur Hcat Hvideos Hid.
  split; [reflexivity |]. split; [reflexivity |].
  split; rewrite ?handleNextVideo_navigate, ?handlePreviousVideo_navigate;
    by apply (navigate_single_video _ w current cat video).
Qed.

Lemma navigation_single_video_fixed_point_witness :
  currentFullScreenVideo (state single_video_fullscreen)
    = Some {| fs_id := "a"; fs_category := "yoga" |} /\
  fs_id <$> currentFullScreenVideo
              (state (world_after handleNextVideo single_video_fullscreen)) = Some "a" /\
  fs_id <$> currentFullScreenVideo
              (state (world_after handlePreviousVideo single_video_fullscreen)) = Some "a".
Proof.
  assert (Hcur : currentFullScreenVideo (state single_video_fullscreen)
                 = Some {| fs_id := "a"; fs_category := "yoga" |})
    by (vm_compute; reflexivity).
  split; [exact Hcur |].
  refine (proj2 (proj2 (navigation_single_video_fixed_point single_video_fullscreen
            {| fs_id := "a"; fs_category := "yoga" |} "yoga"
            (toVideo sample_views sample_draw 0
               {| doc_id := "a"; doc_data := stored_in (Some "yoga") |})
            Hcur _ _ _))).
  - vm_compute. reflexivity.
  - vm_compute. reflexivity.
  - reflexivity.
Defined.


End VideoFetchSpec.

(** * Further properties of the registration dialog *)

Module RegisterMemberProperties.
Import RegisterMember.

Local Ltac run_dialog :=
  unfold world_after, result_of, handleCloseClick, handleSubmit, onSubmit, try_catch,
    await_createUser, await_addDoc, new_Date, setFormError, reset, onClose,
    toast_success, toast_error, emit, settle, modify, gets, get, bind, ret;
  cbn.

Lemma issued_since_suffix (d d' : Dialog) (l : list Effect) :
  trace d' = (trace d ++ l)%list -> issued_since d d' = l.
Proof.
  intros H. unfold issued_since. rewrite H. by rewrite drop_app_length.
Qed.

Lemma length_two_more (d : Dialog) (a b : Effect) :
  length ((trace d ++ [a]) ++ [b]) = length (trace d) + 2.
Proof. rewrite <- app_assoc, List.length_app. cbn. lia. Qed.

Lemma length_three_more (d : Dialog) (a b c : Effect) :
  length (((trace d ++ [a]) ++ [b]) ++ [c]) = length (trace d) + 3.
Proof. rewrite <- !app_assoc, List.length_app. cbn. lia. Qed.

(** ** The message shown for an error *)


(** ** Outcomes of a submission *)

(** The three ways a submission fails, as runs of [onSubmit]. *)
Lemma identity_rejected_run (svc : Services) (d : Dialog)
    (data : MemberFormData) (error : FirebaseError) :
  createUserWithEmailAndPassword svc (email data) (password data) = inl error ->
  let d' := world_after (onSubmit svc data) d in
  result_of (onSubmit svc data) d = inr tt /\
  formError d' = Some (errorMessage_of error) /\ values d' = values d /\
  trace d' = (trace d ++
    [SetFormError None; CreateUser (email data) (password data);
     SetFormError (Some (errorMessage_of error));
     ToastError (errorMessage_of error)])%list.
Proof.
  intros Hrej d'. subst d'. run_dialog. rewrite Hrej. cbn.
  repeat split. by rewrite <- !app_assoc.
Qed.

Lemma profile_write_rejected_run (svc : Services) (d : Dialog)
    (data : MemberFormData) (user : UserCredential) (error : FirebaseError) :
  let profile := MemberDoc data (uid user) (newDate svc (length (trace d) + 2)) in
  createUserWithEmailAndPassword svc (email data) (password data) = inr user ->
  addDoc svc "members" profile = inl error ->
  let d' := world_after (onSubmit svc data) d in
  result_of (onSubmit svc data) d = inr tt /\
  formError d' = Some (errorMessage_of error) /\ values d' = values d /\
  trace d' = (trace d ++
    [SetFormError None; CreateUser (email data) (password data);
     AddDoc "members" profile;
     SetFormError (Some (errorMessage_of error));
     ToastError (errorMessage_of error)])%list.
Proof.
  intros profile Hauth Hwrite d'. subst d'. run_dialog. rewrite Hauth. cbn.
  rewrite length_two_more. fold profile. rewrite Hwrite. cbn.
  repeat split. by rewrite <- !app_assoc.
Qed.

Lemma notification_write_rejected_run (svc : Services) (d : Dialog)
    (data : MemberFormData) (user : UserCredential) (error : FirebaseError) :
  let profile := MemberDoc data (uid user) (newDate svc (length (trace d) + 2)) in
  let note := NotificationDoc ("New member registered: " +:+ name data)
                (newDate svc (length (trace d) + 3)) in
  createUserWithEmailAndPassword svc (email data) (password data) = inr user ->
  addDoc svc "members" profile = inr tt ->
  addDoc svc "notifications" note = inl error ->
  let d' := world_after (onSubmit svc data) d in
  result_of (onSubmit svc data) d = inr tt /\
  formError d' = Some (errorMessage_of error) /\ values d' = values d /\
  trace d' = (trace d ++
    [SetFormError None; CreateUser (email data) (password data);
     AddDoc "members" profile; AddDoc "notifications" note;
     SetFormError (Some (errorMessage_of error));
     ToastError (errorMessage_of error)])%list.
Proof.
  intros profile note Hauth Hwrite Hnote d'. subst d'. run_dialog. rewrite Hauth. cbn.
  rewrite length_two_more. fold profile. rewrite Hwrite. cbn.
  rewrite length_three_more. fold note. rewrite Hnote. cbn.
  repeat split. by rewrite <- !app_assoc.
Qed.

(** Any rejection of the identity call, whatever its code, ends the
    submission there: the mapped message is shown and no write to the
    store is issued. *)
Theorem onSubmit_identity_rejected_no_write (svc : Services) (d : Dialog)
    (data : MemberFormData) (error : FirebaseError) :
  createUserWithEmailAndPassword svc (email data) (password data) = inl error ->
  let d' := world_after (onSubmit svc data) d in
  formError d' = Some (errorMessage_of error) /\
  values d' = values d /\
  issued_since d d' =
    [SetFormError None; CreateUser (email data) (password data);
     SetFormError (Some (errorMessage_of error)); ToastError (errorMessage_of error)] /\
  List.filter is_store_write (issued_since d d') = [].
Proof.
  intros Hrej d'.
  destruct (identity_rejected_run svc d data error Hrej) as (_ & Hmsg & Hvalues & Htrace).
  apply issued_since_suffix in Htrace. fold d' in Hmsg, Hvalues, Htrace.
  split; [exact Hmsg |]. split; [exact Hvalues |]. split; [exact Htrace |].
  by rewrite Htrace.
Qed.

Lemma onSubmit_identity_rejected_no_write_witness :
  createUserWithEmailAndPassword (services_rejecting_identity weak_password_error)
    (email ada) (password ada) = inl weak_password_error /\
  formError (world_after (onSubmit (services_rejecting_identity weak_password_error) ada)
               (fill ada initial))
    = Some "Password must be at least 6 characters.".
Proof.
  split; [reflexivity |].
  exact (proj1 (onSubmit_identity_rejected_no_write
                  (services_rejecting_identity weak_password_error)
                  (fill ada initial) ada weak_password_error eq_refl)).
Defined.

(** The identity exists but the profile write is rejected: the
    notification write is not attempted, the error is shown, and the
    dialog stays open with what was typed (no success toast, no reset,
    no close). *)
Theorem onSubmit_profile_write_rejected (svc : Services) (d : Dialog)
    (data : MemberFormData) (user : UserCredential) (error : FirebaseError) :
  let profile := MemberDoc data (uid user) (newDate svc (length (trace d) + 2)) in
  createUserWithEmailAndPassword svc (email data) (password data) = inr user ->
  addDoc svc "members" profile = inl error ->
  let d' := world_after (onSubmit svc data) d in
  formError d' = Some (errorMessage_of error) /\
  values d' = values d /\
  issued_since d d' =
    [SetFormError None; CreateUser (email data) (password data);
     AddDoc "members" profile;
     SetFormError (Some (errorMessage_of error)); ToastError (errorMessage_of error)].
Proof.
  intros profile Hauth Hwrite d'.
  destruct (profile_write_rejected_run svc d data user error Hauth Hwrite)
    as (_ & Hmsg & Hvalues & Htrace).
  apply issued_since_suffix in Htrace. by repeat split.
Qed.

Lemma onSubmit_profile_write_rejected_witness :
  createUserWithEmailAndPassword (services_rejecting_writes_to "members")
    (email ada) (password ada) = inr {| uid := "uid-ada@example.org" |} /\
  formError (world_after (onSubmit (services_rejecting_writes_to "members") ada)
               (fill ada initial))
    = Some "Firestore service is unavailable." /\
  values (world_after (onSubmit (services_rejecting_writes_to "members") ada)
            (fill ada initial)) = ada.
Proof.
  split; [reflexivity |].
  pose proof (onSubmit_profile_write_rejected (services_rejecting_writes_to "members")
                (fill ada initial) ada {| uid := "uid-ada@example.org" |}
                store_unavailable_error eq_refl eq_refl) as (Hmsg & Hvalues & _).
  split; [exact Hmsg | exact Hvalues].
Defined.

(** The profile is written but the notification write is rejected: both
    writes were issued, the error is shown like any other, and the
    dialog stays open with what was typed. *)
Theorem onSubmit_notification_write_rejected (svc : Services) (d : Dialog)
    (data : MemberFormData) (user : UserCredential) (error : FirebaseError) :
  let profile := MemberDoc data (uid user) (newDate svc (length (trace d) + 2)) in
  let note := NotificationDoc ("New member registered: " +:+ name data)
                (newDate svc (length (trace d) + 3)) in
  createUserWithEmailAndPassword svc (email data) (password data) = inr user ->
  addDoc svc "members" profile = inr tt ->
  addDoc svc "notifications" note = inl error ->
  let d' := world_after (onSubmit svc data) d in
  formError d' = Some (errorMessage_of error) /\
  values d' = values d /\
  issued_since d d' =
    [SetFormError None; CreateUser (email data) (password data);
     AddDoc "members" profile; AddDoc "notifications" note;
     SetFormError (Some (errorMessage_of error)); ToastError (errorMessage_of error)].
Proof.
  intros profile note Hauth Hwrite Hnote d'.
  destruct (notification_write_rejected_run svc d data user error Hauth Hwrite Hnote)
    as (_ & Hmsg & Hvalues & Htrace).
  apply issued_since_suffix in Htrace. by repeat split.
Qed.

Lemma onSubmit_notification_write_rejected_witness :
  createUserWithEmailAndPassword (services_rejecting_writes_to "notifications")
    (email ada) (password ada) = inr {| uid := "uid-ada@example.org" |} /\
  formError (world_after (onSubmit (services_rejecting_writes_to "notifications") ada)
               (fill ada initial))
    = Some "Firestore service is unavailable.".
Proof.
  split; [reflexivity |].
  exact (proj1 (onSubmit_notification_write_rejected
                  (services_rejecting_writes_to "notifications")
                  (fill ada initial) ada {| uid := "uid-ada@example.org" |}
                  store_unavailable_error eq_refl eq_refl eq_refl)).
Defined.


(** ** Closing the dialog *)

(** The close and Cancel buttons contact no service and leave the form
    as it is when first opened, whatever was typed, whatever field
    errors were shown and whatever a failed submission left behind. *)
Theorem handleCloseClick_discards_everything (d : Dialog) :
  let d' := world_after handleCloseClick d in
  (formError d', values d', errors d') = (formError initial, values initial, errors initial) /\
  issued_since d d' = [OnClose; Reset; SetFormError None] /\
  result_of handleCloseClick d = inr tt.
Proof.
  run_dialog. split; [reflexivity |]. split; [| reflexivity].
  apply issued_since_suffix. cbn. by rewrite <- !app_assoc.
Qed.

(** ** The e-mail pattern *)

Lemma dot_then_more_cons (ch : ascii) (r : string) :
  dot_then_more (String ch r) =
    (Ascii.eqb ch "." && negb (String.eqb r "")) || dot_then_more r.
Proof. reflexivity. Qed.

Lemma at_then_domain_cons (ch : ascii) (r : string) :
  at_then_domain (String ch r) =
    (Ascii.eqb ch "@" &&
     match r with EmptyString => false | String _ r' => dot_then_more r' end)
    || at_then_domain r.
Proof. reflexivity. Qed.

Lemma dot_then_more_spec (s : string) :
  dot_then_more s = true <->
  exists b c, s = b +:+ "." +:+ c /\ c <> "".
Proof.
  split.
  - induction s as [|ch r IH]; [done |]. rewrite dot_then_more_cons.
    intros [[Hdot Hrest]%andb_prop | Hlater]%orb_prop.
    + apply Ascii.eqb_eq in Hdot. subst ch. exists "", r. split; [done |].
      intros ->. done.
    + destruct (IH Hlater) as (b & c & -> & Hc). by exists (String ch b), c.
  - intros (b & c & -> & Hc). induction b as [|ch b IH].
    + change ("" +:+ "." +:+ c) with (String "." c).
      rewrite dot_then_more_cons, Ascii.eqb_refl. by destruct c.
    + change (String ch b +:+ "." +:+ c) with (String ch (b +:+ "." +:+ c)).
      rewrite dot_then_more_cons, IH. apply orb_true_r.
Qed.

Lemma at_then_domain_spec (s : string) :
  at_then_domain s = true <->
  exists a b c, s = a +:+ "@" +:+ b +:+ "." +:+ c /\ b <> "" /\ c <> "".
Proof.
  split.
  - induction s as [|ch r IH]; [done |]. rewrite at_then_domain_cons.
    intros [[Hat Hrest]%andb_prop | Hlater]%orb_prop.
    + apply Ascii.eqb_eq in Hat. subst ch. destruct r as [|x r']; [done |].
      apply dot_then_more_spec in Hrest as (b & c & -> & Hc).
      by exists "", (String x b), c.
    + destruct (IH Hlater) as (a & b & c & -> & Hb & Hc).
      by exists (String ch a), b, c.
  - intros (a & b & c & -> & Hb & Hc). induction a as [|ch a IH].
    + destruct b as [|x b]; [done |].
      change ("" +:+ "@" +:+ String x b +:+ "." +:+ c)
        with (String "@" (String x (b +:+ "." +:+ c))).
      rewrite at_then_domain_cons, Ascii.eqb_refl.
      assert (Hdot : dot_then_more (b +:+ "." +:+ c) = true)
        by (apply dot_then_more_spec; by exists b, c).
      by rewrite Hdot.
    + change (String ch a +:+ "@" +:+ b +:+ "." +:+ c)
        with (String ch (a +:+ "@" +:+ b +:+ "." +:+ c)).
      rewrite at_then_domain_cons, IH. apply orb_true_r.
Qed.

(** The recogniser accepts exactly the strings the regular expression
    [/^\S+@\S+\.\S+$/] matches: strings without white space that split
    into a non-empty part, an at sign, a non-empty part, a dot and a
    non-empty part. *)
Theorem email_pattern_spec (s : string) :
  email_pattern s = true <->
  all_non_space s = true /\
  exists a b c, s = a +:+ "@" +:+ b +:+ "." +:+ c /\ a <> "" /\ b <> "" /\ c <> "".
Proof.
  unfold email_pattern. rewrite andb_true_iff.
  split; intros [Hspace Hshape]; (split; [exact Hspace |]).
  - destruct s as [|x r]; [done |].
    apply at_then_domain_spec in Hshape as (a & b & c & -> & Hb & Hc).
    by exists (String x a), b, c.
  - destruct Hshape as (a & b & c & -> & Ha & Hb & Hc).
    destruct a as [|x a]; [done |]. cbn.
    apply at_then_domain_spec. by exists a, b, c.
Qed.

(** ** What the form lets through *)

(** The rules registered for the four fields let a form through exactly
    when the name is not empty, the e-mail address matches the pattern,
    the password has at least six characters and a membership is chosen. *)
Theorem validate_valid_iff (v : MemberFormData) :
  is_valid (validate v) = true <->
  name v <> "" /\ email_pattern (email v) = true /\
  6 <= String.length (password v) /\ membership v <> "".
Proof.
  unfold is_valid, validate, validateField. cbn -[Nat.ltb String.length].
  destruct (String.eqb_spec (name v) "") as [Hn | Hn];
    [split; [done | by intros (? & _)] |].
  destruct (String.eqb_spec (email v) "") as [He | He].
  { split; [done |]. intros (_ & Hp & _). by rewrite He in Hp. }
  destruct (email_pattern (email v)) eqn:Hp; [| split; [done | by intros (_ & ? & _)]].
  destruct (String.eqb_spec (password v) "") as [Hw | Hw].
  { split; [done |]. intros (_ & _ & Hlen & _). rewrite Hw in Hlen. cbn in Hlen. lia. }
  destruct (Nat.ltb_spec (String.length (password v)) 6) as [Hlen | Hlen];
    [split; [done |]; intros (_ & _ & ? & _); lia |].
  destruct (String.eqb_spec (membership v) "") as [Hm | Hm];
    [split; [done | by intros (_ & _ & _ & ?)] |].
  done.
Qed.

(** A form that does not pass the rules is held back: nothing is issued,
    the typed values and the error line are as before.  A password of
    one to five characters and an address that is not empty but does not
    match the pattern get their own messages. *)
Theorem handleSubmit_blocks_invalid (svc : Services) (d : Dialog) :
  is_valid (validate (values d)) = false ->
  let d' := world_after (handleSubmit (onSubmit svc)) d in
  trace d' = trace d /\ values d' = values d /\ formError d' = formError d /\
  (password (values d) <> "" -> String.length (password (values d)) < 6 ->
   err_password (errors d') = Some "Password must be at least 6 characters") /\
  (email (values d) <> "" -> email_pattern (email (values d)) = false ->
   err_email (errors d') = Some "Invalid email format").
Proof.
  intros Hinvalid d'.
  assert (Hd' : d' = {| formError := formError d; values := values d;
                        errors := validate (values d); trace := trace d |}).
  { subst d'. run_dialog. by rewrite Hinvalid. }
  rewrite Hd'. cbn [trace values formError errors validate err_password err_email].
  repeat split.
  - intros Hne Hlen. unfold validateField. cbn -[Nat.ltb String.length].
    apply String.eqb_neq in Hne. rewrite Hne.
    apply Nat.ltb_lt in Hlen. by rewrite Hlen.
  - intros Hne Hpat. unfold validateField. cbn -[Nat.ltb String.length].
    apply String.eqb_neq in Hne. by rewrite Hne, Hpat.
Qed.

Lemma handleSubmit_blocks_invalid_witness :
  is_valid (validate (values (fill short_password initial))) = false /\
  trace (world_after (handleSubmit (onSubmit services_accepting))
           (fill short_password initial)) = [] /\
  err_password (errors (world_after (handleSubmit (onSubmit services_accepting))
                          (fill short_password initial)))
    = Some "Password must be at least 6 characters" /\
  is_valid (validate (values (fill malformed_email initial))) = false /\
  err_email (errors (world_after (handleSubmit (onSubmit services_accepting))
                       (fill malformed_email initial)))
    = Some "Invalid email format".
Proof.
  pose proof (handleSubmit_blocks_invalid services_accepting
                (fill short_password initial) eq_refl) as (Ht & _ & _ & Hpw & _).
  pose proof (handleSubmit_blocks_invalid services_accepting
                (fill malformed_email initial) eq_refl) as (_ & _ & _ & _ & Hem).
  split; [reflexivity |]. split; [exact Ht |].
  split; [apply Hpw; [discriminate | cbn; lia] |].
  split; [reflexivity |]. apply Hem; [discriminate | reflexivity].
Defined.

(** A form that passes the rules is submitted with the typed values:
    [handleSubmit] issues what [onSubmit] issues on them and leaves the
    same error line and field values. *)
Theorem handleSubmit_valid_runs_onSubmit (svc : Services) (d : Dialog) :
  is_valid (validate (values d)) = true ->
  let d' := world_after (handleSubmit (onSubmit svc)) d in
  let d'' := world_after (onSubmit svc (values d)) d in
  trace d' = trace d'' /\ formError d' = formError d'' /\ values d' = values d''.
Proof.
  intros Hvalid d' d''. subst d' d''. run_dialog. rewrite Hvalid. cbn.
  destruct (createUserWithEmailAndPassword svc _ _); cbn; [done |].
  destruct (addDoc svc "members" _); cbn; [done |].
  by destruct (addDoc svc "notifications" _).
Qed.

Lemma handleSubmit_valid_runs_onSubmit_witness :
  is_valid (validate (values (fill ada initial))) = true /\
  trace (world_after (handleSubmit (onSubmit services_accepting)) (fill ada initial))
    = trace (world_after (onSubmit services_accepting ada) (fill ada initial)).
Proof.
  split; [reflexivity |].
  exact (proj1 (handleSubmit_valid_runs_onSubmit services_accepting
                  (fill ada initial) eq_refl)).
Defined.

End RegisterMemberProperties.

(** * Further properties of the video gallery *)

Module VideoFetchProperties.
Import VideoFetch.

Local Ltac run_handler :=
  cbv beta iota zeta delta
    [world_after result_of fetchVideos await_getDocs
     handleVideoLoaded handlePlayPause handleVideoClick handleVolumeChange
     handleToggleSmallScreen
     handleFullScreen handleExitFullScreen handleFullscreenChange
     fullscreenchange handleMuteToggle
     navigate pause_unguarded videoRef play assign_muted assign_currentTime
     assign_volume setVideos setPlaying setVolume setMuted setProgress
     setCurrentFullScreenVideo setCurrentCategory setVideoLoaded
     setIsFullScreen setIsSmallScreen setLoading setWorkouts console_error
     emit try_finally try_catch settle throw modify gets get bind ret
     on_state on_refs session_fields fst snd
     state videoRefs document trace
     videos playing volume muted progress currentFullScreenVideo
     currentCategory videoLoaded isFullScreen isSmallScreen
     fullscreenElement exitFullscreen webkitExitFullscreen msExitFullscreen].

Local Ltac destruct_world w :=
  destruct w as [[vs pl vol mu pr cfs cc vl ifs iss] refs [fse ex wex mex] tr];
  cbn in * |-.

Local Ltac run_on w := destruct_world w; run_handler.

Lemma issued_since_extends (w w' : World) (l : list Effect) :
  trace w' = (trace w ++ l)%list -> issued_since w w' = l.
Proof.
  intros H. unfold issued_since. rewrite H. by rewrite drop_app_length.
Qed.

(** ** Groups *)





(** ** Initial playback state *)




(** ** Durations *)

Lemma two_digits_below_60 :
  forallb (fun n => let k := N.of_nat n in
             String.eqb (two_digits k)
               (String (decimal_digit (k / 10)) (String (decimal_digit (k mod 10)) "")))
          (seq 0 60) = true.
Proof. vm_compute. reflexivity. Qed.

Lemma one_digit_below_10 :
  forallb (fun n => let k := N.of_nat n in
             String.eqb (pretty k) (String (decimal_digit k) ""))
          (seq 0 10) = true.
Proof. vm_compute. reflexivity. Qed.

(** A duration is shown as the minutes, a colon and the seconds of the
    minute in exactly two digits; below ten minutes, which covers every
    duration the fetch synthesises (60 to 359 seconds), that is four
    characters. *)
Theorem formatDuration_shape (seconds : N) :
  formatDuration seconds =
    pretty (seconds / 60)%N +:+ ":" +:+
    String (decimal_digit ((seconds mod 60) / 10))
      (String (decimal_digit ((seconds mod 60) mod 10)) "") /\
  ((seconds < 600)%N -> String.length (formatDuration seconds) = 4).
Proof.
  assert (Hsecs : two_digits (seconds mod 60) =
            String (decimal_digit ((seconds mod 60) / 10))
              (String (decimal_digit ((seconds mod 60) mod 10)) "")).
  { assert (Hlt : (seconds mod 60 < 60)%N) by (apply N.mod_upper_bound; lia).
    revert Hlt. generalize (seconds mod 60)%N. intros k Hlt.
    apply String.eqb_eq.
    pose proof (proj1 (forallb_forall _ _) two_digits_below_60 (N.to_nat k)
                  ltac:(apply in_seq; lia)) as Hall.
    cbv beta zeta in Hall. by rewrite N2Nat.id in Hall. }
  assert (Hshape : formatDuration seconds =
            pretty (seconds / 60)%N +:+ ":" +:+ two_digits (seconds mod 60)).
  { unfold formatDuration. destruct (N.eqb_spec seconds 0) as [-> | _]; [done |].
    reflexivity. }
  split; [by rewrite Hshape, Hsecs |].
  intros Hlt. rewrite Hshape, Hsecs.
  assert (Hmin : pretty (seconds / 60)%N = String (decimal_digit (seconds / 60)) "").
  { assert (Hten : (seconds / 60 < 10)%N) by (apply N.Div0.div_lt_upper_bound; lia).
    revert Hten. generalize (seconds / 60)%N. intros k Hten.
    apply String.eqb_eq.
    pose proof (proj1 (forallb_forall _ _) one_digit_below_10 (N.to_nat k)
                  ltac:(apply in_seq; lia)) as Hall.
    cbv beta zeta in Hall. by rewrite N2Nat.id in Hall. }
  by rewrite Hmin.
Qed.

Lemma formatDuration_shape_witness :
  (359 < 600)%N /\ String.length (formatDuration 359) = 4.
Proof.
  split; [reflexivity |].
  exact (proj2 (formatDuration_shape 359) eq_refl).
Defined.

(** ** Handlers on a video that is not mounted *)

(** Every handler that starts with [if (video)] does nothing at all for
    a video id that has no mounted element: no state change, no call. *)
Theorem unmounted_video_handlers_do_nothing (w : World) (videoId category : string)
    (volumeValue : Q) :
  videoRefs w !! videoId = None ->
  world_after (handlePlayPause videoId) w = w /\
  world_after (handleVideoClick videoId) w = w /\
  world_after (handleFullScreen videoId category) w = w /\
  world_after (handleMuteToggle videoId) w = w /\
  world_after (handleVolumeChange videoId volumeValue) w = w.
Proof.
  intros Hnone. destruct_world w. run_handler. rewrite Hnone. repeat split; reflexivity.
Qed.

Lemma unmounted_video_handlers_do_nothing_witness :
  videoRefs unmounted_gallery !! "a" = None /\
  world_after (handleFullScreen "a" "yoga") unmounted_gallery = unmounted_gallery.
Proof.
  assert (Hnone : videoRefs unmounted_gallery !! "a" = None) by (vm_compute; reflexivity).
  split; [exact Hnone |].
  exact (proj1 (proj2 (proj2 (unmounted_video_handlers_do_nothing
                                unmounted_gallery "a" "yoga" 0 Hnone)))).
Defined.

(** ** Play and pause *)

Lemma handlePlayPause_step (w : World) (videoId : string) (el : HTMLVideoElement) :
  videoRefs w !! videoId = Some el ->
  let was := truthy_bool (playing (state w) !! videoId) in
  let w' := world_after (handlePlayPause videoId) w in
  videoRefs w' = videoRefs w /\
  playing (state w') = <[videoId := negb was]> (playing (state w)) /\
  muted (state w') = muted (state w) /\
  trace w' = (trace w ++ [if was then Pause videoId else Play videoId])%list.
Proof.
  intros Hel. destruct_world w. run_handler. rewrite Hel.
  destruct (truthy_bool (pl !! videoId)) eqn:Hwas; run_handler; rewrite ?Hwas;
    repeat split; reflexivity.
Qed.

(** On a mounted video the play/pause control calls [pause] when the
    flag says playing and [play] otherwise, and flips the flag; used
    twice it issues the two calls in turn and the flag is back. *)
Theorem handlePlayPause_twice (w : World) (videoId : string) (el : HTMLVideoElement) :
  videoRefs w !! videoId = Some el ->
  let was := truthy_bool (playing (state w) !! videoId) in
  let w1 := world_after (handlePlayPause videoId) w in
  let w2 := world_after (handlePlayPause videoId) w1 in
  playing (state w1) !! videoId = Some (negb was) /\
  issued_since w w1 = [if was then Pause videoId else Play videoId] /\
  playing (state w2) !! videoId = Some was /\
  issued_since w w2 =
    [if was then Pause videoId else Play videoId;
     if was then Play videoId else Pause videoId].
Proof.
  intros Hel was w1 w2.
  destruct (handlePlayPause_step w videoId el Hel) as (Hrefs1 & Hp1 & _ & Ht1).
  fold was w1 in Hrefs1, Hp1, Ht1.
  assert (Hel1 : videoRefs w1 !! videoId = Some el) by (by rewrite Hrefs1).
  destruct (handlePlayPause_step w1 videoId el Hel1) as (_ & Hp2 & _ & Ht2).
  fold w2 in Hp2, Ht2.
  assert (Hwas1 : truthy_bool (playing (state w1) !! videoId) = negb was)
    by (by rewrite Hp1, lookup_insert_eq).
  rewrite Hwas1 in Hp2, Ht2.
  split; [by rewrite Hp1, lookup_insert_eq |].
  split; [by apply issued_since_extends |].
  split; [by rewrite Hp2, lookup_insert_eq, negb_involutive |].
  apply issued_since_extends. rewrite Ht2, Ht1, <- app_assoc. by destruct was.
Qed.

Lemma handlePlayPause_twice_witness :
  videoRefs playing_a !! "a" = Some card_element /\
  playing (state playing_a) !! "a" = Some true /\
  issued_since playing_a
    (world_after (handlePlayPause "a") (world_after (handlePlayPause "a") playing_a))
    = [Pause "a"; Play "a"].
Proof.
  assert (Hel : videoRefs playing_a !! "a" = Some card_element)
    by (vm_compute; reflexivity).
  split; [exact Hel |]. split; [vm_compute; reflexivity |].
  exact (proj2 (proj2 (proj2 (handlePlayPause_twice playing_a "a" card_element Hel)))).
Defined.

(** ** Mute and volume *)

Lemma handleMuteToggle_step (w : World) (videoId : string) (el : HTMLVideoElement) :
  videoRefs w !! videoId = Some el ->
  let was := truthy_bool (muted (state w) !! videoId) in
  let w' := world_after (handleMuteToggle videoId) w in
  muted (state w') = <[videoId := negb was]> (muted (state w)) /\
  (exists el', videoRefs w' !! videoId = Some el' /\ el_muted el' = negb was) /\
  volume (state w') = volume (state w) /\
  playing (state w') = playing (state w) /\
  trace w' = trace w.
Proof.
  intros Hel. destruct_world w. run_handler. rewrite Hel.
  repeat split. eexists. rewrite lookup_alter_eq, Hel. by split.
Qed.

(** On a mounted video the mute button flips the flag and assigns the
    same value to the element's [muted] property, so flag and element
    agree afterwards; pressed twice, both are back at the flag's
    former value.  It makes no media call and changes no volume. *)
Theorem handleMuteToggle_mirrors_element (w : World) (videoId : string)
    (el : HTMLVideoElement) :
  videoRefs w !! videoId = Some el ->
  let was := truthy_bool (muted (state w) !! videoId) in
  let w1 := world_after (handleMuteToggle videoId) w in
  let w2 := world_after (handleMuteToggle videoId) w1 in
  muted (state w1) !! videoId = Some (negb was) /\
  el_muted <$> videoRefs w1 !! videoId = Some (negb was) /\
  muted (state w2) !! videoId = Some was /\
  el_muted <$> videoRefs w2 !! videoId = Some was /\
  issued_since w w2 = [] /\
  volume (state w2) = volume (state w).
Proof.
  intros Hel was w1 w2.
  destruct (handleMuteToggle_step w videoId el Hel)
    as (Hm1 & (el1 & Hel1 & Hprop1) & Hv1 & _ & Ht1).
  fold was w1 in Hm1, Hel1, Hprop1, Hv1, Ht1.
  destruct (handleMuteToggle_step w1 videoId el1 Hel1)
    as (Hm2 & (el2 & Hel2 & Hprop2) & Hv2 & _ & Ht2).
  fold w2 in Hm2, Hel2, Hprop2, Hv2, Ht2.
  assert (Hwas1 : truthy_bool (muted (state w1) !! videoId) = negb was)
    by (by rewrite Hm1, lookup_insert_eq).
  rewrite Hwas1, negb_involutive in Hm2, Hprop2.
  split; [by rewrite Hm1, lookup_insert_eq |].
  split; [by rewrite Hel1; cbn; rewrite Hprop1 |].
  split; [by rewrite Hm2, lookup_insert_eq |].
  split; [by rewrite Hel2; cbn; rewrite Hprop2 |].
  split; [apply issued_since_extends; by rewrite Ht2, Ht1, app_nil_r |].
  by rewrite Hv2, Hv1.
Qed.

Lemma handleMuteToggle_mirrors_element_witness :
  videoRefs (gallery card_element) !! "a" = Some card_element /\
  muted (state (world_after (handleMuteToggle "a") (gallery card_element))) !! "a"
    = Some false /\
  el_muted <$> videoRefs (world_after (handleMuteToggle "a") (gallery card_element)) !! "a"
    = Some false.
Proof.
  assert (Hel : videoRefs (gallery card_element) !! "a" = Some card_element)
    by (vm_compute; reflexivity).
  pose proof (handleMuteToggle_mirrors_element (gallery card_element) "a" card_element Hel)
    as (Hflag & Hprop & _).
  split; [exact Hel |]. split; [exact Hflag | exact Hprop].
Defined.

(** On a mounted video a volume change stores the value in the state and
    on the element.  A positive value also clears the [muted] flag and
    the element's [muted] property, so the button shows the sound icon;
    any other value leaves both as they were, and the value zero shows
    the muted icon. *)
Theorem handleVolumeChange_mirrors_element (w : World) (videoId : string)
    (el : HTMLVideoElement) (volumeValue : Q) :
  videoRefs w !! videoId = Some el ->
  let w' := world_after (handleVolumeChange videoId volumeValue) w in
  volume (state w') !! videoId = Some volumeValue /\
  el_volume <$> videoRefs w' !! videoId = Some volumeValue /\
  issued_since w w' = [] /\
  ((0 < volumeValue)%Q ->
   muted (state w') !! videoId = Some false /\
   el_muted <$> videoRefs w' !! videoId = Some false /\
   mute_icon (state w') videoId = FiVolume2) /\
  (~ (0 < volumeValue)%Q ->
   muted (state w') = muted (state w) /\
   el_muted <$> videoRefs w' !! videoId = Some (el_muted el)) /\
  ((volumeValue == 0)%Q -> mute_icon (state w') videoId = FiVolumeX).
Proof.
  intros Hel w'. subst w'. destruct_world w. unfold mute_icon. run_handler. rewrite Hel.
  destruct (Qlt_le_dec 0 volumeValue) as [Hpos | Hnonpos]; cbn.
  - rewrite !lookup_insert_eq, !lookup_alter_eq, Hel. cbn.
    split; [done |]. split; [done |].
    split; [apply drop_all |].
    split.
    + intros _. split; [done |]. split; [done |].
      destruct (Qeq_bool volumeValue 0) eqn:Hzero; [| done].
      apply Qeq_bool_iff in Hzero. rewrite Hzero in Hpos. by apply Qlt_irrefl in Hpos.
    + split; [done |]. intros Hzero. rewrite Hzero in Hpos. by apply Qlt_irrefl in Hpos.
  - rewrite !lookup_insert_eq, !lookup_alter_eq, Hel. cbn.
    split; [done |]. split; [done |].
    split; [apply drop_all |].
    split; [intros Hpos; by apply Qlt_not_le in Hpos |].
    split; [done |].
    intros Hzero. apply Qeq_bool_iff in Hzero. by rewrite Hzero, orb_true_r.
Qed.

Lemma handleVolumeChange_mirrors_element_witness :
  videoRefs (gallery card_element) !! "a" = Some card_element /\
  (0 < 1 # 2)%Q /\
  mute_icon (state (world_after (handleVolumeChange "a" (1 # 2)) (gallery card_element))) "a"
    = FiVolume2 /\
  (0 == 0)%Q /\
  mute_icon (state (world_after (handleVolumeChange "a" 0) silent_a)) "a" = FiVolumeX.
Proof.
  assert (Hel : videoRefs (gallery card_element) !! "a" = Some card_element)
    by (vm_compute; reflexivity).
  assert (Hel' : videoRefs silent_a !! "a"
                 = Some {| el_muted := false; el_volume := 0; el_currentTime := 5;
                           requestFullscreen := true; webkitRequestFullscreen := false;
                           msRequestFullscreen := false |})
    by (vm_compute; reflexivity).
  assert (Hpos : (0 < 1 # 2)%Q) by reflexivity.
  assert (Hzero : (0 == 0)%Q) by reflexivity.
  split; [exact Hel |]. split; [exact Hpos |].
  split.
  - exact (proj2 (proj2 (proj1 (proj2 (proj2 (proj2
             (handleVolumeChange_mirrors_element (gallery card_element) "a"
                card_element (1 # 2) Hel)))) Hpos))).
  - split; [exact Hzero |].
    exact (proj2 (proj2 (proj2 (proj2 (proj2
             (handleVolumeChange_mirrors_element silent_a "a" _ 0 Hel'))))) Hzero).
Defined.

(** ** Entering and leaving fullscreen *)

(** Entering fullscreen on a mounted video makes at most one fullscreen
    request, by the first method the element offers in the order
    standard, webkit, ms, and then plays the video. *)
Theorem handleFullScreen_requests_once (w : World) (videoId category : string)
    (el : HTMLVideoElement) :
  videoRefs w !! videoId = Some el ->
  issued_since w (world_after (handleFullScreen videoId category) w) =
    ((if requestFullscreen el then [RequestFullscreen Standard videoId]
      else if webkitRequestFullscreen el then [RequestFullscreen Webkit videoId]
      else if msRequestFullscreen el then [RequestFullscreen Ms videoId]
      else []) ++ [Play videoId])%list.
Proof.
  intros Hel. destruct_world w. run_handler. rewrite Hel.
  destruct el as [m v t [|] [|] [|]]; apply issued_since_extends; cbn;
    by rewrite <- ?app_assoc.
Qed.

Lemma handleFullScreen_requests_once_witness :
  videoRefs (gallery card_element) !! "a" = Some card_element /\
  issued_since (gallery card_element)
    (world_after (handleFullScreen "a" "yoga") (gallery card_element))
    = [RequestFullscreen Standard "a"; Play "a"].
Proof.
  assert (Hel : videoRefs (gallery card_element) !! "a" = Some card_element)
    by (vm_compute; reflexivity).
  split; [exact Hel |].
  exact (handleFullScreen_requests_once (gallery card_element) "a" "yoga" card_element Hel).
Defined.

(** Entering fullscreen on a mounted video marks it playing and clears
    its [muted] flag together with the element's [muted] property, and
    sets the fullscreen flag with the compact flag off; the flags of
    every other video stay as they are, so a video playing in another
    card is not paused. *)
Theorem handleFullScreen_forces_playing_unmuted (w : World) (videoId category : string)
    (el : HTMLVideoElement) :
  videoRefs w !! videoId = Some el ->
  let w' := world_after (handleFullScreen videoId category) w in
  playing (state w') !! videoId = Some true /\
  muted (state w') !! videoId = Some false /\
  el_muted <$> videoRefs w' !! videoId = Some false /\
  isFullScreen (state w') = true /\ isSmallScreen (state w') = false /\
  (forall other, other <> videoId ->
     playing (state w') !! other = playing (state w) !! other /\
     muted (state w') !! other = muted (state w) !! other /\
     videoRefs w' !! other = videoRefs w !! other) /\
  forallb (fun e => match e with Pause _ => false | _ => true end)
    (issued_since w w') = true.
Proof.
  intros Hel. destruct_world w. run_handler. rewrite Hel.
  destruct el as [m v t [|] [|] [|]]; cbn;
    rewrite ?lookup_insert_eq, ?lookup_alter_eq, ?Hel; cbn;
    (do 5 (split; [done |]); split;
     [intros other Hother;
      by rewrite !lookup_insert_ne, lookup_alter_ne by done
     | unfold issued_since; cbn; rewrite <- ?app_assoc;
       by rewrite drop_app_length]).
Qed.

Lemma handleFullScreen_forces_playing_unmuted_witness :
  videoRefs playing_a !! "b" = Some card_element /\
  playing (state (world_after (handleFullScreen "b" "yoga") playing_a)) !! "b" = Some true /\
  playing (state (world_after (handleFullScreen "b" "yoga") playing_a)) !! "a" = Some true.
Proof.
  assert (Hel : videoRefs playing_a !! "b" = Some card_element)
    by (vm_compute; reflexivity).
  pose proof (handleFullScreen_forces_playing_unmuted playing_a "b" "yoga" card_element Hel)
    as (Hb & _ & _ & _ & _ & Hothers & _).
  split; [exact Hel |]. split; [exact Hb |].
  rewrite (proj1 (Hothers "a" ltac:(discriminate))). vm_compute. reflexivity.
Defined.

(** A fullscreen change event changes nothing in the component when it
    finds an element in fullscreen mode (the browser has entered it) or
    when no session is active. *)
Theorem fullscreenchange_without_effect (w : World) (el : option string) :
  is_Some el \/ currentFullScreenVideo (state w) = None ->
  let w' := world_after (fullscreenchange el) w in
  state w' = state w /\ videoRefs w' = videoRefs w /\ trace w' = trace w /\
  fullscreenElement (document w') = el.
Proof.
  intros Hcase. destruct_world w. run_handler.
  destruct Hcase as [[x ->] | ->]; [done |]. by destruct el.
Qed.

Lemma fullscreenchange_without_effect_witness :
  is_Some (Some "a") /\
  state (world_after (fullscreenchange (Some "a"))
           (world_after (handleFullScreen "a" "yoga") (gallery card_element)))
    = state (world_after (handleFullScreen "a" "yoga") (gallery card_element)).
Proof.
  assert (H : is_Some (Some "a")) by eauto.
  split; [exact H |].
  exact (proj1 (fullscreenchange_without_effect
                  (world_after (handleFullScreen "a" "yoga") (gallery card_element))
                  (Some "a") (or_introl H))).
Defined.

(** The exit control makes at most one exit call, by the first method
    the document offers in the order standard, webkit, ms; it pauses
    nothing and leaves the playing and muted flags alone; and the change
    event the browser sends afterwards finds the session already
    cleared and changes nothing more. *)
Theorem handleExitFullScreen_then_event (w : World) :
  let w1 := world_after handleExitFullScreen w in
  let w2 := world_after (fullscreenchange None) w1 in
  issued_since w w1 =
    (if exitFullscreen (document w) then [ExitFullscreen Standard]
     else if webkitExitFullscreen (document w) then [ExitFullscreen Webkit]
     else if msExitFullscreen (document w) then [ExitFullscreen Ms]
     else []) /\
  playing (state w1) = playing (state w) /\
  muted (state w1) = muted (state w) /\
  state w2 = state w1 /\ trace w2 = trace w1.
Proof.
  destruct_world w. run_handler.
  destruct ex, wex, mex; run_handler; repeat split;
    try reflexivity; try (by apply issued_since_extends); apply drop_all.
Qed.

(** ** Clicking a card *)

(** The first click on a mounted video that has not loaded starts it
    muted: the element's [muted] property is set, [play] is called and
    the playing flag is set, while the [muted] flag of the state is not
    touched.  Once the video has loaded, a click is the play/pause
    control. *)
Theorem handleVideoClick_cases (w : World) (videoId : string) (el : HTMLVideoElement) :
  videoRefs w !! videoId = Some el ->
  let w' := world_after (handleVideoClick videoId) w in
  (truthy_bool (videoLoaded (state w) !! videoId) = false ->
   el_muted <$> videoRefs w' !! videoId = Some true /\
   playing (state w') !! videoId = Some true /\
   muted (state w') = muted (state w) /\
   issued_since w w' = [Play videoId]) /\
  (truthy_bool (videoLoaded (state w) !! videoId) = true ->
   w' = world_after (handlePlayPause videoId) w).
Proof.
  intros Hel. destruct_world w. run_handler. rewrite Hel.
  split; intros Hloaded; rewrite Hloaded; cbn.
  - rewrite lookup_alter_eq, Hel, lookup_insert_eq.
    repeat split. by rewrite drop_app_length.
  - run_handler. rewrite Hel.
    destruct (truthy_bool (pl !! videoId)) eqn:Hp; run_handler; rewrite ?Hp; reflexivity.
Qed.

Lemma handleVideoClick_cases_witness :
  videoRefs (gallery card_element) !! "a" = Some card_element /\
  truthy_bool (videoLoaded (state (gallery card_element)) !! "a") = false /\
  issued_since (gallery card_element)
    (world_after (handleVideoClick "a") (gallery card_element)) = [Play "a"] /\
  videoRefs playing_a !! "a" = Some card_element /\
  truthy_bool (videoLoaded (state playing_a) !! "a") = true /\
  world_after (handleVideoClick "a") playing_a
    = world_after (handlePlayPause "a") playing_a.
Proof.
  assert (Hel : videoRefs (gallery card_element) !! "a" = Some card_element)
    by (vm_compute; reflexivity).
  assert (Hnot : truthy_bool (videoLoaded (state (gallery card_element)) !! "a") = false)
    by (vm_compute; reflexivity).
  assert (Hel' : videoRefs playing_a !! "a" = Some card_element)
    by (vm_compute; reflexivity).
  assert (Hloaded : truthy_bool (videoLoaded (state playing_a) !! "a") = true)
    by (vm_compute; reflexivity).
  split; [exact Hel |]. split; [exact Hnot |].
  split.
  - exact (proj2 (proj2 (proj2 (proj1
             (handleVideoClick_cases (gallery card_element) "a" card_element Hel) Hnot)))).
  - split; [exact Hel' |]. split; [exact Hloaded |].
    exact (proj2 (handleVideoClick_cases playing_a "a" card_element Hel') Hloaded).
Defined.

(** ** Playlist steps *)

(** The index computations, on a position of the playlist. *)
Lemma next_target_position {A} (l : list A) (i : nat) :
  i < length l ->
  array_at l (next_target (Z.of_nat i) (Z.of_nat (length l)))
    = l !! ((i + 1) mod length l).
Proof.
  intros Hi. unfold next_target, js_rem, array_at.
  destruct (Z.eqb_spec (Z.of_nat (length l)) 0) as [|_]; [lia |].
  rewrite Z.rem_mod_nonneg by lia.
  replace (Z.of_nat i + 1)%Z with (Z.of_nat (i + 1)) by lia.
  rewrite <- Nat2Z.inj_mod, Nat2Z.id.
  by destruct (Z.ltb_spec (Z.of_nat ((i + 1) mod length l)) 0); [lia |].
Qed.

Lemma previous_target_position {A} (l : list A) (i : nat) :
  i < length l ->
  array_at l (previous_target (Z.of_nat i) (Z.of_nat (length l)))
    = l !! ((i + length l - 1) mod length l).
Proof.
  intros Hi. unfold previous_target, js_rem, array_at.
  destruct (Z.eqb_spec (Z.of_nat (length l)) 0) as [|_]; [lia |].
  rewrite Z.rem_mod_nonneg by lia.
  replace (Z.of_nat i - 1 + Z.of_nat (length l))%Z
    with (Z.of_nat (i + length l - 1)) by lia.
  rewrite <- Nat2Z.inj_mod, Nat2Z.id.
  by destruct (Z.ltb_spec (Z.of_nat ((i + length l - 1) mod length l)) 0); [lia |].
Qed.

Lemma findIndex_found_below {A} (p : A -> bool) (l : list A) (i : nat) :
  findIndex p l = Z.of_nat i -> i < length l.
Proof.
  intros Hi. destruct (VideoFetchSpec.findIndex_range p l); lia.
Qed.

(** In a playlist without repeated ids, the id of the video at a
    position is found at that position. *)
Lemma findIndex_NoDup (l : list Video) (i : nat) (video : Video) :
  NoDup (id <$> l) ->
  l !! i = Some video ->
  findIndex (fun v => String.eqb (id v) (id video)) l = Z.of_nat i.
Proof.
  revert i. induction l as [|x l IH]; intros i Hnodup Hi; [done |].
  rewrite fmap_cons in Hnodup. apply NoDup_cons in Hnodup as [Hx Hnodup].
  cbn [findIndex]. destruct i as [|i]; cbn in Hi.
  - injection Hi as ->. by rewrite String.eqb_refl.
  - destruct (String.eqb_spec (id x) (id video)) as [Heq | _].
    + exfalso. apply Hx. rewrite Heq.
      apply list_elem_of_fmap_2. by apply list_elem_of_lookup_2 in Hi.
    + rewrite (IH i Hnodup Hi).
      destruct (Z.ltb_spec (Z.of_nat i) 0); lia.
Qed.

(** A playlist step that finds its target with both elements mounted. *)
Lemma navigate_success (target : Z -> Z -> option Z) (w : World)
    (current : FullScreenVideo) (cat : string) (currentVideos : list Video)
    (newVideo : Video) (outgoing incoming : HTMLVideoElement) :
  currentFullScreenVideo (state w) = Some current ->
  currentCategory (state w) = Some cat ->
  cat <> "" ->
  videos (state w) !! cat = Some currentVideos ->
  array_at currentVideos
    (target (findIndex (fun video => String.eqb (id video) (fs_id current)) currentVideos)
            (Z.of_nat (length currentVideos))) = Some newVideo ->
  videoRefs w !! fs_id current = Some outgoing ->
  videoRefs w !! id newVideo = Some incoming ->
  let w' := world_after (navigate target) w in
  trace w' = (trace w ++ [Pause (fs_id current); Play (id newVideo)])%list /\
  currentFullScreenVideo (state w') =
    Some {| fs_id := id newVideo; fs_category := cat |} /\
  playing (state w') =
    <[id newVideo := true]> (<[fs_id current := false]> (playing (state w))) /\
  result_of (navigate target) w = inr tt.
Proof.
  intros Hcur Hcat Hne Hvideos Htarget Hout Hin w'. subst w'.
  apply String.eqb_neq in Hne.
  destruct_world w. subst cfs cc. run_handler.
  rewrite Hne, Hvideos, Hout, Htarget, Hin. cbn.
  repeat split. by rewrite <- !app_assoc.
Qed.

(** What no playlist step does, from any world: it changes neither the
    playlists, the category, the volume, muted, progress and loaded
    maps, the fullscreen and compact flags nor the document; it mounts
    and unmounts nothing; and the only calls it makes are [pause] and
    [play], so it never requests or exits fullscreen mode. *)
Theorem navigation_frame (handler : Eff World JsError unit) (w : World) :
  handler = handleNextVideo \/ handler = handlePreviousVideo ->
  let w' := world_after handler w in
  videos (state w') = videos (state w) /\
  currentCategory (state w') = currentCategory (state w) /\
  volume (state w') = volume (state w) /\
  muted (state w') = muted (state w) /\
  progress (state w') = progress (state w) /\
  videoLoaded (state w') = videoLoaded (state w) /\
  isFullScreen (state w') = isFullScreen (state w) /\
  isSmallScreen (state w') = isSmallScreen (state w) /\
  document w' = document w /\
  dom (videoRefs w') = dom (videoRefs w) /\
  exists calls, trace w' = (trace w ++ calls)%list /\
                forallb is_playback_call calls = true.
Proof.
  intros Hhandler w'. subst w'.
  assert (Hnav : exists target, handler = navigate target).
  { destruct Hhandler as [-> | ->]; [by exists next_target | by exists previous_target]. }
  destruct Hnav as [target ->]. clear Hhandler.
  run_on w.
  destruct cfs as [current|]; [| repeat split; exists []; by rewrite app_nil_r].
  destruct cc as [cat|]; [| repeat split; exists []; by rewrite app_nil_r].
  destruct (String.eqb cat ""); [repeat split; exists []; by rewrite app_nil_r |].
  destruct (vs !! cat) as [currentVideos|];
    [| repeat split; exists []; by rewrite app_nil_r].
  destruct (refs !! fs_id current);
    [| repeat split; exists []; by rewrite app_nil_r].
  destruct (array_at currentVideos _) as [newVideo|];
    [| repeat split; by exists [Pause (fs_id current)]].
  destruct (refs !! id newVideo); cbn.
  - repeat split; [by rewrite !dom_alter_L |].
    exists [Pause (fs_id current); Play (id newVideo)]. by rewrite <- !app_assoc.
  - repeat split. by exists [Pause (fs_id current)].
Qed.

Lemma navigation_frame_witness :
  (handleNextVideo = handleNextVideo \/ handleNextVideo = handlePreviousVideo) /\
  videos (state (world_after handleNextVideo fullscreen_on_a))
    = videos (state fullscreen_on_a) /\
  muted (state (world_after handleNextVideo fullscreen_on_a))
    = muted (state fullscreen_on_a).
Proof.
  assert (H : handleNextVideo = handleNextVideo \/ handleNextVideo = handlePreviousVideo)
    by (by left).
  pose proof (navigation_frame handleNextVideo fullscreen_on_a H)
    as (Hvideos & _ & _ & Hmuted & _).
  split; [exact H |]. split; [exact Hvideos | exact Hmuted].
Defined.

(** Without an active session, or with an empty current category,
    Next and Previous do nothing at all. *)
Theorem navigation_without_session (handler : Eff World JsError unit) (w : World) :
  handler = handleNextVideo \/ handler = handlePreviousVideo ->
  currentFullScreenVideo (state w) = None \/
  truthy_string (currentCategory (state w)) = false ->
  world_after handler w = w /\ result_of handler w = inr tt.
Proof.
  intros Hhandler Hguard.
  assert (Hnav : exists target, handler = navigate target).
  { destruct Hhandler as [-> | ->]; [by exists next_target | by exists previous_target]. }
  destruct Hnav as [target ->]. clear Hhandler.
  destruct_world w. unfold truthy_string in Hguard. run_handler.
  destruct cfs as [current|]; [| done].
  destruct Hguard as [? | Hfalsy]; [done |].
  destruct cc as [cat|]; [| done].
  apply negb_false_iff in Hfalsy. by rewrite Hfalsy.
Qed.

Lemma navigation_without_session_witness :
  (handlePreviousVideo = handleNextVideo \/ handlePreviousVideo = handlePreviousVideo) /\
  currentFullScreenVideo (state (gallery card_element)) = None /\
  world_after handlePreviousVideo (gallery card_element) = gallery card_element.
Proof.
  assert (H : handlePreviousVideo = handleNextVideo \/
              handlePreviousVideo = handlePreviousVideo) by (by right).
  assert (Hnone : currentFullScreenVideo (state (gallery card_element)) = None)
    by (vm_compute; reflexivity).
  split; [exact H |]. split; [exact Hnone |].
  exact (proj1 (navigation_without_session handlePreviousVideo (gallery card_element)
                  H (or_introl Hnone))).
Defined.

(** Where a playlist step throws.  With no playlist under the current
    category it throws before anything is changed.  With the outgoing
    element not mounted it throws at the unguarded [pause], after the
    outgoing video has been marked not playing: the session still names
    that video, and no call has been made. *)
Theorem navigation_throws (handler : Eff World JsError unit) (w : World)
    (current : FullScreenVideo) (cat : string) :
  handler = handleNextVideo \/ handler = handlePreviousVideo ->
  currentFullScreenVideo (state w) = Some current ->
  currentCategory (state w) = Some cat ->
  cat <> "" ->
  let w' := world_after handler w in
  (videos (state w) !! cat = None ->
   (exists what, result_of handler w = inl (TypeError what)) /\ w' = w) /\
  (is_Some (videos (state w) !! cat) -> videoRefs w !! fs_id current = None ->
   (exists what, result_of handler w = inl (TypeError what)) /\
   currentFullScreenVideo (state w') = Some current /\
   playing (state w') = <[fs_id current := false]> (playing (state w)) /\
   trace w' = trace w).
Proof.
  intros Hhandler Hcur Hcat Hne w'. subst w'.
  assert (Hnav : exists target, handler = navigate target).
  { destruct Hhandler as [-> | ->]; [by exists next_target | by exists previous_target]. }
  destruct Hnav as [target ->]. clear Hhandler.
  apply String.eqb_neq in Hne.
  destruct_world w. subst cfs cc. run_handler. rewrite Hne.
  split.
  - intros ->. split; [by eexists | done].
  - intros [currentVideos ->] ->. cbn. split; [by eexists | done].
Qed.

Lemma navigation_throws_witness :
  (handleNextVideo = handleNextVideo \/ handleNextVideo = handlePreviousVideo) /\
  videoRefs fullscreen_unmounted !! "a" = None /\
  currentFullScreenVideo (state (world_after handleNextVideo fullscreen_unmounted))
    = Some {| fs_id := "a"; fs_category := "yoga" |} /\
  playing (state (world_after handleNextVideo fullscreen_unmounted)) !! "a" = Some false.
Proof.
  assert (H : handleNextVideo = handleNextVideo \/ handleNextVideo = handlePreviousVideo)
    by (by left).
  assert (Hcur : currentFullScreenVideo (state fullscreen_unmounted)
                 = Some {| fs_id := "a"; fs_category := "yoga" |})
    by (vm_compute; reflexivity).
  assert (Hcat : currentCategory (state fullscreen_unmounted) = Some "yoga")
    by (vm_compute; reflexivity).
  assert (Hlist : is_Some (videos (state fullscreen_unmounted) !! "yoga"))
    by (vm_compute; eauto).
  assert (Hnone : videoRefs fullscreen_unmounted !! "a" = None)
    by (vm_compute; reflexivity).
  pose proof (proj2 (navigation_throws handleNextVideo fullscreen_unmounted
                       {| fs_id := "a"; fs_category := "yoga" |} "yoga"
                       H Hcur Hcat ltac:(discriminate)) Hlist Hnone)
    as (_ & Hsession & Hplaying & _).
  split; [exact H |]. split; [exact Hnone |]. split; [exact Hsession |].
  rewrite Hplaying. apply lookup_insert_eq.
Defined.

(** With the active video found at position [i] of its playlist and the
    elements mounted, Next makes the video at position [(i + 1) mod
    length] the active one and Previous the one at position [(i + length
    - 1) mod length]: the step after the last video is the first, the
    step before the first is the last.  Each pauses the outgoing video
    and plays the incoming one. *)
Theorem navigation_moves_to_neighbour (w : World)
    (current : FullScreenVideo) (cat : string) (currentVideos : list Video) (i : nat)
    (nextVideo prevVideo : Video) (outgoing inNext inPrev : HTMLVideoElement) :
  currentFullScreenVideo (state w) = Some current ->
  currentCategory (state w) = Some cat ->
  cat <> "" ->
  videos (state w) !! cat = Some currentVideos ->
  findIndex (fun video => String.eqb (id video) (fs_id current)) currentVideos
    = Z.of_nat i ->
  currentVideos !! ((i + 1) mod length currentVideos) = Some nextVideo ->
  currentVideos !! ((i + length currentVideos - 1) mod length currentVideos)
    = Some prevVideo ->
  videoRefs w !! fs_id current = Some outgoing ->
  videoRefs w !! id nextVideo = Some inNext ->
  videoRefs w !! id prevVideo = Some inPrev ->
  let wn := world_after handleNextVideo w in
  let wp := world_after handlePreviousVideo w in
  currentFullScreenVideo (state wn) = Some {| fs_id := id nextVideo; fs_category := cat |} /\
  issued_since w wn = [Pause (fs_id current); Play (id nextVideo)] /\
  currentFullScreenVideo (state wp) = Some {| fs_id := id prevVideo; fs_category := cat |} /\
  issued_since w wp = [Pause (fs_id current); Play (id prevVideo)].
Proof.
  intros Hcur Hcat Hne Hvideos Hfound Hnext Hprev Hout HinN HinP wn wp.
  pose proof (findIndex_found_below _ _ _ Hfound) as Hi.
  destruct (navigate_success next_target w current cat currentVideos nextVideo
              outgoing inNext) as (Htn & Hsn & _); try done.
  { by rewrite Hfound, next_target_position. }
  destruct (navigate_success previous_target w current cat currentVideos prevVideo
              outgoing inPrev) as (Htp & Hsp & _); try done.
  { by rewrite Hfound, previous_target_position. }
  split; [exact Hsn |]. split; [by apply issued_since_extends |].
  split; [exact Hsp |]. by apply issued_since_extends.
Qed.

Lemma navigation_moves_to_neighbour_witness :
  currentFullScreenVideo (state fullscreen_on_b)
    = Some {| fs_id := "b"; fs_category := "yoga" |} /\
  currentFullScreenVideo (state (world_after handleNextVideo fullscreen_on_b))
    = Some {| fs_id := "a"; fs_category := "yoga" |} /\
  currentFullScreenVideo (state (world_after handlePreviousVideo fullscreen_on_b))
    = Some {| fs_id := "a"; fs_category := "yoga" |}.
Proof.
  assert (Hcur : currentFullScreenVideo (state fullscreen_on_b)
                 = Some {| fs_id := "b"; fs_category := "yoga" |})
    by (vm_compute; reflexivity).
  assert (Hcat : currentCategory (state fullscreen_on_b) = Some "yoga")
    by (vm_compute; reflexivity).
  assert (Hvideos : videos (state fullscreen_on_b) !! "yoga"
                    = Some [toVideo sample_views sample_draw 0
                              {| doc_id := "a"; doc_data := stored_in (Some "yoga") |};
                            toVideo sample_views sample_draw 1
                              {| doc_id := "b"; doc_data := stored_in (Some "yoga") |}])
    by (vm_compute; reflexivity).
  assert (Hout : is_Some (videoRefs fullscreen_on_b !! "b")) by (vm_compute; eauto).
  assert (Hin : is_Some (videoRefs fullscreen_on_b !! "a")) by (vm_compute; eauto).
  destruct Hout as [outgoing Hout]. destruct Hin as [incoming Hin].
  pose proof (navigation_moves_to_neighbour fullscreen_on_b
                {| fs_id := "b"; fs_category := "yoga" |} "yoga" _ 1
                (toVideo sample_views sample_draw 0
                   {| doc_id := "a"; doc_data := stored_in (Some "yoga") |})
                (toVideo sample_views sample_draw 0
                   {| doc_id := "a"; doc_data := stored_in (Some "yoga") |})
                outgoing incoming incoming
                Hcur Hcat ltac:(discriminate) Hvideos eq_refl eq_refl eq_refl
                Hout Hin Hin) as (Hn & _ & Hp & _).
  split; [exact Hcur |]. split; [exact Hn | exact Hp].
Defined.

(** In a playlist without repeated ids whose videos are all mounted,
    Previous undoes Next and Next undoes Previous: after the two steps
    the session names the video it started from, which is marked
    playing. *)
Theorem next_then_previous_returns (w : World)
    (current : FullScreenVideo) (cat : string) (currentVideos : list Video) (i : nat)
    (video : Video) :
  currentFullScreenVideo (state w) = Some current ->
  currentCategory (state w) = Some cat ->
  cat <> "" ->
  videos (state w) !! cat = Some currentVideos ->
  NoDup (id <$> currentVideos) ->
  currentVideos !! i = Some video ->
  id video = fs_id current ->
  (forall v, v ∈ currentVideos -> is_Some (videoRefs w !! id v)) ->
  let back := Some {| fs_id := fs_id current; fs_category := cat |} in
  let w1 := world_after handlePreviousVideo (world_after handleNextVideo w) in
  let w2 := world_after handleNextVideo (world_after handlePreviousVideo w) in
  currentFullScreenVideo (state w1) = back /\
  playing (state w1) !! fs_id current = Some true /\
  currentFullScreenVideo (state w2) = back /\
  playing (state w2) !! fs_id current = Some true.
Proof.
  intros Hcur Hcat Hne Hvideos Hnodup Hi Hid Hmounted back w1 w2.
  assert (Hlen : i < length currentVideos) by (by apply lookup_lt_Some in Hi).
  assert (Hfound : findIndex (fun v => String.eqb (id v) (fs_id current)) currentVideos
                   = Z.of_nat i).
  { rewrite <- Hid. by apply findIndex_NoDup. }
  (* one step from [w] to position [j], then one step back to [i] *)
  assert (Hround : forall (there backward : Z -> Z -> option Z) (j : nat),
            j < length currentVideos ->
            (forall l' : list Video, length l' = length currentVideos ->
               array_at l' (there (Z.of_nat i) (Z.of_nat (length l'))) = l' !! j) ->
            (forall l' : list Video, length l' = length currentVideos ->
               array_at l' (backward (Z.of_nat j) (Z.of_nat (length l'))) = l' !! i) ->
            let w' := world_after (navigate backward) (world_after (navigate there) w) in
            currentFullScreenVideo (state w') = back /\
            playing (state w') !! fs_id current = Some true).
  { intros there backward j Hj Hthere Hbackward w'. subst w'.
    destruct (lookup_lt_is_Some_2 currentVideos j Hj) as [other Hother].
    destruct (Hmounted video (list_elem_of_lookup_2 _ _ _ Hi)) as [outgoing Hout].
    destruct (Hmounted other (list_elem_of_lookup_2 _ _ _ Hother)) as [incoming Hin].
    rewrite Hid in Hout.
    destruct (navigate_success there w current cat currentVideos other outgoing incoming)
      as (_ & Hs1 & _); try done.
    { by rewrite Hfound, Hthere. }
    set (w1' := world_after (navigate there) w) in *.
    assert (Hframe : videos (state w1') = videos (state w) /\
                     currentCategory (state w1') = currentCategory (state w) /\
                     dom (videoRefs w1') = dom (videoRefs w)).
    { assert (Hgen : forall target,
                videos (state (world_after (navigate target) w)) = videos (state w) /\
                currentCategory (state (world_after (navigate target) w))
                  = currentCategory (state w) /\
                dom (videoRefs (world_after (navigate target) w)) = dom (videoRefs w)).
      { intros target. clear. run_on w.
        destruct cfs as [c|]; [| done]. destruct cc as [k|]; [| done].
        destruct (String.eqb k ""); [done |].
        destruct (vs !! k) as [l|]; [| done].
        destruct (refs !! fs_id c); [| done].
        destruct (array_at l _) as [v|]; [| done].
        destruct (refs !! id v); cbn; [| done]. by rewrite !dom_alter_L. }
      apply Hgen. }
    destruct Hframe as (Hv1 & Hc1 & Hd1).
    assert (Hout1 : is_Some (videoRefs w1' !! id other)).
    { apply elem_of_dom. rewrite Hd1. apply elem_of_dom. eauto. }
    assert (Hin1 : is_Some (videoRefs w1' !! id video)).
    { apply elem_of_dom. rewrite Hd1. apply elem_of_dom. rewrite Hid. eauto. }
    destruct Hout1 as [outgoing1 Hout1]. destruct Hin1 as [incoming1 Hin1].
    destruct (navigate_success backward w1' {| fs_id := id other; fs_category := cat |}
                cat currentVideos video outgoing1 incoming1)
      as (_ & Hs2 & Hp2 & _); try done.
    { by rewrite Hc1. }
    { by rewrite Hv1. }
    { cbn [fs_id]. rewrite (findIndex_NoDup currentVideos j other Hnodup Hother).
      by rewrite Hbackward. }
    rewrite Hs2, Hp2, Hid. split; [done |]. apply lookup_insert_eq. }
  assert (Hpos : 0 < length currentVideos) by lia.
  destruct (Hround next_target previous_target ((i + 1) mod length currentVideos))
    as [Hs1 Hp1].
  { apply Nat.mod_upper_bound; lia. }
  { intros l' Hl'. rewrite next_target_position by lia. by rewrite Hl'. }
  { intros l' Hl'. rewrite previous_target_position
      by (rewrite Hl'; apply Nat.mod_upper_bound; lia).
    rewrite Hl'. f_equal.
    destruct (decide (i + 1 < length currentVideos)) as [Hlt | Hge].
    - rewrite (Nat.mod_small (i + 1)) by lia.
      replace (i + 1 + length currentVideos - 1) with (i + 1 * length currentVideos) by lia.
      rewrite Nat.Div0.mod_add. by apply Nat.mod_small.
    - replace (i + 1) with (length currentVideos) by lia.
      rewrite Nat.Div0.mod_same. cbn. rewrite Nat.mod_small by lia. lia. }
  destruct (Hround previous_target next_target
              ((i + length currentVideos - 1) mod length currentVideos))
    as [Hs2 Hp2].
  { apply Nat.mod_upper_bound; lia. }
  { intros l' Hl'. rewrite previous_target_position by lia. by rewrite Hl'. }
  { intros l' Hl'. rewrite next_target_position
      by (rewrite Hl'; apply Nat.mod_upper_bound; lia).
    rewrite Hl'. f_equal.
    destruct (decide (i = 0)) as [-> | Hnz].
    - replace (0 + length currentVideos - 1) with (length currentVideos - 1) by lia.
      rewrite (Nat.mod_small (length currentVideos - 1)) by lia.
      replace (length currentVideos - 1 + 1) with (length currentVideos) by lia.
      apply Nat.Div0.mod_same.
    - replace (i + length currentVideos - 1)
        with (i - 1 + 1 * length currentVideos) by lia.
      rewrite Nat.Div0.mod_add, (Nat.mod_small (i - 1)) by lia.
      replace (i - 1 + 1) with i by lia. by apply Nat.mod_small. }
  split; [exact Hs1 |]. split; [exact Hp1 |]. split; [exact Hs2 | exact Hp2].
Qed.

Lemma next_then_previous_returns_witness :
  currentFullScreenVideo (state fullscreen_on_a)
    = Some {| fs_id := "a"; fs_category := "yoga" |} /\
  currentFullScreenVideo
    (state (world_after handlePreviousVideo (world_after handleNextVideo fullscreen_on_a)))
    = Some {| fs_id := "a"; fs_category := "yoga" |}.
Proof.
  assert (Hcur : currentFullScreenVideo (state fullscreen_on_a)
                 = Some {| fs_id := "a"; fs_category := "yoga" |})
    by (vm_compute; reflexivity).
  assert (Hcat : currentCategory (state fullscreen_on_a) = Some "yoga")
    by (vm_compute; reflexivity).
  assert (Hvideos : videos (state fullscreen_on_a) !! "yoga"
                    = Some [toVideo sample_views sample_draw 0
                              {| doc_id := "a"; doc_data := stored_in (Some "yoga") |};
                            toVideo sample_views sample_draw 1
                              {| doc_id := "b"; doc_data := stored_in (Some "yoga") |}])
    by (vm_compute; reflexivity).
  split; [exact Hcur |].
  refine (proj1 (next_then_previous_returns fullscreen_on_a
                   {| fs_id := "a"; fs_category := "yoga" |} "yoga" _ 0 _
                   Hcur Hcat _ Hvideos _ eq_refl eq_refl _)).
  - discriminate.
  - cbn. apply NoDup_cons. split.
    + rewrite list_elem_of_singleton. discriminate.
    + apply NoDup_singleton.
  - intros v Hv. apply elem_of_cons in Hv as [-> | Hv].
    + vm_compute. eauto.
    + apply list_elem_of_singleton in Hv as ->. vm_compute. eauto.
Defined.

(** ** The session and what the fullscreen player reads *)

Lemma array_at_elem {A} (l : list A) (i : option Z) (x : A) :
  array_at l i = Some x -> x ∈ l.
Proof.
  unfold array_at. destruct i as [k|]; [| done].
  destruct (k <? 0)%Z; [done |]. apply list_elem_of_lookup_2.
Qed.

(** The fullscreen control of a card, whose video belongs to the
    category the card is listed under, records a session that names a
    video of that category's playlist. *)
Theorem handleFullScreen_session_well_formed (w : World) (videoId category : string)
    (el : HTMLVideoElement) (currentVideos : list Video) (video : Video) :
  videoRefs w !! videoId = Some el ->
  videos (state w) !! category = Some currentVideos ->
  video ∈ currentVideos ->
  id video = videoId ->
  session_well_formed (state (world_after (handleFullScreen videoId category) w)).
Proof.
  intros Hel Hvideos Hin Hid. unfold session_well_formed.
  destruct_world w. run_handler. rewrite Hel.
  destruct el as [m v t [|] [|] [|]]; cbn;
    intros current [= <-]; cbn; (split; [done |]); by exists currentVideos, video.
Qed.

Lemma handleFullScreen_session_well_formed_witness :
  videoRefs (gallery card_element) !! "b" = Some card_element /\
  session_well_formed
    (state (world_after (handleFullScreen "b" "yoga") (gallery card_element))).
Proof.
  assert (Hel : videoRefs (gallery card_element) !! "b" = Some card_element)
    by (vm_compute; reflexivity).
  split; [exact Hel |].
  refine (handleFullScreen_session_well_formed (gallery card_element) "b" "yoga"
            card_element
            [toVideo sample_views sample_draw 0
               {| doc_id := "a"; doc_data := stored_in (Some "yoga") |};
             toVideo sample_views sample_draw 1
               {| doc_id := "b"; doc_data := stored_in (Some "yoga") |}]
            (toVideo sample_views sample_draw 1
               {| doc_id := "b"; doc_data := stored_in (Some "yoga") |})
            Hel _ _ eq_refl).
  - vm_compute. reflexivity.
  - apply elem_of_cons. right. apply list_elem_of_singleton. reflexivity.
Defined.

Lemma navigate_keeps_well_formed (target : Z -> Z -> option Z) (w : World) :
  session_well_formed (state w) ->
  session_well_formed (state (world_after (navigate target) w)).
Proof.
  unfold session_well_formed. destruct_world w. intros Hwf. run_handler.
  destruct cfs as [current|]; [| done].
  destruct cc as [cat|]; [| done].
  destruct (String.eqb cat ""); [done |].
  destruct (vs !! cat) as [currentVideos|] eqn:Hvideos; [| done].
  destruct (refs !! fs_id current); [| done].
  destruct (array_at currentVideos _) as [newVideo|] eqn:Hnew; [| done].
  apply array_at_elem in Hnew.
  destruct (refs !! id newVideo); cbn;
    intros c [= <-]; cbn; (split; [done |]); by exists currentVideos, newVideo.
Qed.

(** Any sequence of Next and Previous steps keeps the session
    well-formed: the active video always is a video of the current
    category's playlist, also after a step that threw. *)
Theorem navigation_keeps_session_well_formed
    (handlers : list (Eff World JsError unit)) (w : World) :
  Forall (fun h => h = handleNextVideo \/ h = handlePreviousVideo) handlers ->
  session_well_formed (state w) ->
  session_well_formed (state (run_all handlers w)).
Proof.
  unfold run_all. revert w.
  induction handlers as [|h handlers IH]; intros w Hall Hwf; [done |].
  apply Forall_cons in Hall as [Hh Hall]. cbn [foldl]. apply IH; [done |].
  destruct Hh as [-> | ->].
  - by apply (navigate_keeps_well_formed next_target).
  - by apply (navigate_keeps_well_formed previous_target).
Qed.

Lemma entered_on_b_well_formed :
  session_well_formed
    (state (world_after (handleFullScreen "b" "yoga") (gallery card_element))).
Proof.
  intros current Hcurrent. vm_compute in Hcurrent. injection Hcurrent as <-.
  split; [vm_compute; reflexivity |].
  eexists _, (toVideo sample_views sample_draw 1
                {| doc_id := "b"; doc_data := stored_in (Some "yoga") |}).
  split; [vm_compute; reflexivity |].
  split; [| reflexivity].
  apply elem_of_cons. right. apply list_elem_of_singleton. reflexivity.
Qed.

Lemma navigation_keeps_session_well_formed_witness :
  session_well_formed
    (state (run_all [handleNextVideo; handleNextVideo; handlePreviousVideo]
              (world_after (handleFullScreen "b" "yoga") (gallery card_element)))).
Proof.
  apply navigation_keeps_session_well_formed.
  - apply Forall_cons_2; [by left |].
    apply Forall_cons_2; [by left |].
    apply Forall_cons_2; [by right |]. apply Forall_nil_2.
  - apply entered_on_b_well_formed.
Defined.

(** With a well-formed session the fullscreen player finds the record
    whose fields it reads, and that record has the active id; with a
    session naming an id no video of the playlist carries, or a category
    without playlist, rendering throws a [TypeError]. *)
Theorem fullscreen_player_lookup (s : State) (current : FullScreenVideo) :
  currentFullScreenVideo s = Some current ->
  (session_well_formed s ->
   exists video, fullscreen_player_video s = Some (inr video) /\
                 id video = fs_id current) /\
  ((forall currentVideos video,
      videos s !! property_key (currentCategory s) = Some currentVideos ->
      video ∈ currentVideos -> id video <> fs_id current) ->
   exists what, fullscreen_player_video s = Some (inl (TypeError what))).
Proof.
  intros Hcur. unfold fullscreen_player_video. rewrite Hcur. split.
  - intros Hwf. destruct (Hwf current Hcur) as (Hcat & l & v & Hvideos & Hin & Hid).
    rewrite Hcat. cbn. rewrite Hvideos.
    destruct (List.find _ l) as [found|] eqn:Hfind.
    + exists found. split; [done |].
      apply find_some in Hfind as [_ Heq]. by apply String.eqb_eq in Heq.
    + pose proof (find_none _ _ Hfind v (proj1 (list_elem_of_In _ _) Hin)) as Hneq.
      cbn in Hneq. by apply String.eqb_neq in Hneq.
  - intros Habsent. destruct (videos s !! property_key (currentCategory s))
      as [l|] eqn:Hvideos; [| by eexists].
    destruct (List.find _ l) as [found|] eqn:Hfind; [| by eexists].
    apply find_some in Hfind as [Hin Heq]. apply String.eqb_eq in Heq.
    apply list_elem_of_In in Hin. by destruct (Habsent l found eq_refl Hin).
Qed.

Lemma fullscreen_player_lookup_witness :
  currentFullScreenVideo (state fullscreen_on_b)
    = Some {| fs_id := "b"; fs_category := "yoga" |} /\
  exists video, fullscreen_player_video (state fullscreen_on_b) = Some (inr video) /\
                id video = "b".
Proof.
  assert (Hcur : currentFullScreenVideo (state fullscreen_on_b)
                 = Some {| fs_id := "b"; fs_category := "yoga" |})
    by (vm_compute; reflexivity).
  split; [exact Hcur |].
  apply (proj1 (fullscreen_player_lookup (state fullscreen_on_b) _ Hcur)).
  intros current Hcurrent. rewrite Hcur in Hcurrent. injection Hcurrent as <-.
  split; [vm_compute; reflexivity |].
  eexists _, (toVideo sample_views sample_draw 1
                {| doc_id := "b"; doc_data := stored_in (Some "yoga") |}).
  split; [vm_compute; reflexivity |].
  split; [| reflexivity].
  apply elem_of_cons. right. apply list_elem_of_singleton. reflexivity.
Defined.

End VideoFetchProperties.
